(** * Quick Notes: the client-side note store, its storage adapter and its
      merge importer

    A shallow embedding of the state-and-persistence logic of the notes page
    (the [HomePage] component and the three helpers above it), followed by
    the properties of that logic.

    Conventions of the embedding.
    - A JavaScript string is a [string]: a sequence of code units.  The
      string methods the page calls on text the user writes ([trim],
      [toLowerCase], [includes], [slice]) are given their ECMAScript
      meaning on code units below 256.  [toUpperCase], which the page
      calls on an identifier it generates only, is given its meaning on
      code units below 128: the digits [0]..[9], the letters [a]..[z] and
      the point, of which [toString(36)] makes its strings, are among
      them.
    - A JavaScript number is an integer [Z].  This is the range of
      [Date.now()] and of every [updatedAt] the page itself produces; the
      order of two numbers and the sign of their difference are exact.
    - A value produced by [JSON.parse] is a [json] tree; [undefined], which
      is what reading a missing property gives, is [None] in [option json].
    - A computation that may throw is a [completion]; [try]/[catch] is a
      match on it.
    - [Date.now()] is a clock [nat -> Z]: the k-th reading made during one
      call.  [Math.random().toString(36)] is an input string.
    - The in-memory collection is typed as the source types it, [Note[]].
      The two places where untyped data enters (the durable key and an
      imported file) are modelled on [json]. *)

From Stdlib Require Import ZArith List String Ascii Bool Lia Sorted Permutation.
From Stdlib Require Import DecimalString.
Import ListNotations.

Local Open Scope string_scope.
Local Open Scope list_scope.
Local Open Scope Z_scope.

(** ** Completions: normal results and thrown exceptions *)

Inductive completion (A : Type) : Type :=
| Normal (a : A)
| Throws.
Arguments Normal {A} a.
Arguments Throws {A}.

Definition bind {A B : Type} (c : completion A) (k : A -> completion B)
  : completion B :=
  match c with
  | Normal a => k a
  | Throws => Throws
  end.

Notation "x <- c ;; k" := (bind c (fun x => k))
  (at level 61, c at next level, right associativity).

(** [try { body } catch { return fallback }] *)
Definition try_catch {A : Type} (body : completion A) (fallback : A) : A :=
  match body with
  | Normal a => a
  | Throws => fallback
  end.

(** ** JSON values *)

#[warnings="-register-all"]
Inductive json : Type :=
| JNull
| JBool (b : bool)
| JNum (z : Z)
| JStr (s : string)
| JArr (elems : list json)
| JObj (fields : list (string * json)).

(** The own properties of a parsed object, in insertion order. *)
Fixpoint lookup (k : string) (fields : list (string * json)) : option json :=
  match fields with
  | [] => None
  | (k', v) :: rest => if String.eqb k k' then Some v else lookup k rest
  end.

(** [n.k] for [k] one of the four field names of a note.  Reading a property
    of [null] throws a TypeError; a primitive or an array has no such
    property, so the read gives [undefined]. *)
Definition get_prop (n : json) (k : string) : completion (option json) :=
  match n with
  | JNull => Throws
  | JObj fields => Normal (lookup k fields)
  | _ => Normal None
  end.

(** [typeof v === "string"] and [typeof v === "number"] *)
Definition typeof_string (v : option json) : bool :=
  match v with
  | Some (JStr _) => true
  | _ => false
  end.

Definition typeof_number (v : option json) : bool :=
  match v with
  | Some (JNum _) => true
  | _ => false
  end.

(** [v ?? d]: [d] when [v] is [undefined] or [null] *)
Definition nullish (v : option json) (d : json) : json :=
  match v with
  | None | Some JNull => d
  | Some x => x
  end.

Definition Array_isArray (v : json) : bool :=
  match v with
  | JArr _ => true
  | _ => false
  end.

(** The platform's JSON codec.  [JSON.parse] throws a SyntaxError on text
    that is not JSON. *)
Class JSON : Type := {
  JSON_parse : string -> completion json;
  JSON_stringify : json -> string
}.

(** ** Array.prototype.sort

    The sort is stable.  [cmp a b < 0] puts [a] first, [cmp a b > 0] puts
    [b] first, and [0] keeps the order the two had. *)

Section ArraySort.
Context {A : Type}.
Variable cmp : A -> A -> Z.

Fixpoint sort_insert (x : A) (l : list A) : list A :=
  match l with
  | [] => [x]
  | y :: ys => if cmp x y <=? 0 then x :: y :: ys else y :: sort_insert x ys
  end.

Fixpoint Array_sort (l : list A) : list A :=
  match l with
  | [] => []
  | x :: xs => sort_insert x (Array_sort xs)
  end.
End ArraySort.

(** ** String methods *)

Definition code (c : ascii) : nat := nat_of_ascii c.

(** WhiteSpace and LineTerminator code units below 256: TAB, LF, VT, FF, CR,
    SP and NBSP. *)
Definition isWhiteSpace (c : ascii) : bool :=
  let n := code c in
  ((9 <=? n) && (n <=? 13) || (n =? 32) || (n =? 160))%nat.

Definition lower_char (c : ascii) : ascii :=
  let n := code c in
  if ((65 <=? n) && (n <=? 90)
      || (192 <=? n) && (n <=? 222) && negb (n =? 215))%nat
  then ascii_of_nat (n + 32) else c.

(** The upper-case form of a code unit below 128: the letters [a]..[z]
    change, nothing else does.  Above 127 it is not the ECMAScript mapping
    (which takes some code units out of the range, and one to two code
    units); the page applies [toUpperCase] to the output of [toString(36)]
    only, which stays below 128. *)
Definition upper_char (c : ascii) : ascii :=
  let n := code c in
  if ((97 <=? n) && (n <=? 122))%nat then ascii_of_nat (n - 32) else c.

Fixpoint map_string (f : ascii -> ascii) (s : string) : string :=
  match s with
  | EmptyString => EmptyString
  | String c s' => String (f c) (map_string f s')
  end.

Definition toLowerCase (s : string) : string := map_string lower_char s.
Definition toUpperCase (s : string) : string := map_string upper_char s.

Fixpoint trimStart (s : string) : string :=
  match s with
  | EmptyString => EmptyString
  | String c s' => if isWhiteSpace c then trimStart s' else s
  end.

Fixpoint trimEnd (s : string) : string :=
  match s with
  | EmptyString => EmptyString
  | String c s' =>
      match trimEnd s' with
      | EmptyString => if isWhiteSpace c then EmptyString else String c EmptyString
      | r => String c r
      end
  end.

Definition trim (s : string) : string := trimEnd (trimStart s).

(** [s.includes(q)] *)
Fixpoint includes (s q : string) : bool :=
  String.prefix q s ||
  match s with
  | EmptyString => false
  | String _ s' => includes s' q
  end.

(** [s.slice(i, j)] for [0 <= i <= j] *)
Definition slice (i j : nat) (s : string) : string :=
  String.substring i (j - i) s.

(** [!s] on a string: the empty string is falsy. *)
Definition falsy (s : string) : bool :=
  match s with
  | EmptyString => true
  | _ => false
  end.

(** [n.toString(36)] on an integer *)
Definition digit36 (d : Z) : ascii :=
  if d <? 10 then ascii_of_nat (48 + Z.to_nat d)
  else ascii_of_nat (87 + Z.to_nat d).

Fixpoint digits36 (fuel : nat) (n : Z) (acc : string) : string :=
  match fuel with
  | O => acc
  | S fuel' =>
      let acc' := String (digit36 (n mod 36)) acc in
      if n <? 36 then acc' else digits36 fuel' (n / 36) acc'
  end.

Definition toString36 (n : Z) : string :=
  if n <? 0
  then String "-" (digits36 (S (Z.to_nat (Z.log2 (- n)))) (- n) EmptyString)
  else digits36 (S (Z.to_nat (Z.log2 n))) n EmptyString.

(** ** The data model *)

Record Note : Type := {
  id : string;
  title : string;
  content : string;
  updatedAt : Z
}.

Definition STORAGE_KEY : string := "quick-notes-v1".

(** The comparator [(a, b) => b.updatedAt - a.updatedAt]. *)
Definition by_updatedAt_desc {A : Type} (key : A -> Z) (a b : A) : Z :=
  key b - key a.

(** What [JSON.stringify] sees of a note. *)
Definition json_of_Note (n : Note) : json :=
  JObj [("id", JStr (id n)); ("title", JStr (title n));
        ("content", JStr (content n)); ("updatedAt", JNum (updatedAt n))].

Definition json_of_notes (notes : list Note) : json :=
  JArr (map json_of_Note notes).

(** ** Local storage

    [localStorage] of the browser: a lookup of strings by key, and a write
    that throws when the quota does not admit the value.  On the server
    there is no [window] and no [localStorage]: the browser is [None]. *)

Record Storage : Type := {
  getItem : string -> option string;
  admits : string -> string -> bool
}.

Definition setItem (ls : Storage) (k v : string) : completion Storage :=
  if admits ls k v
  then Normal {| getItem := fun k' => if String.eqb k' k then Some v
                                     else getItem ls k';
                 admits := admits ls |}
  else Throws.

Definition Browser : Type := option Storage.

(** ** Storage adapter *)

(** A record as [loadNotesFromStorage] builds it: [id] is [n.id] as read,
    [title] and [content] are what [??] leaves, [updatedAt] is a number. *)
Record Loaded : Type := {
  l_id : option json;
  l_title : json;
  l_content : json;
  l_updatedAt : Z
}.

Definition loaded_of_Note (n : Note) : Loaded :=
  {| l_id := Some (JStr (id n));
     l_title := JStr (title n);
     l_content := JStr (content n);
     l_updatedAt := updatedAt n |}.

(** [.filter((n) => typeof n.id === "string")] *)
Fixpoint filter_string_id (l : list json) : completion (list json) :=
  match l with
  | [] => Normal []
  | n :: rest =>
      v <- get_prop n "id" ;;
      rest' <- filter_string_id rest ;;
      Normal (if typeof_string v then n :: rest' else rest')
  end.

(** The callback of [.map]; [k] counts the readings of the clock made so
    far, and the result carries the count after this record. *)
Definition normalize (clock : nat -> Z) (k : nat) (n : json)
  : completion (Loaded * nat) :=
  vid <- get_prop n "id" ;;
  vtitle <- get_prop n "title" ;;
  vcontent <- get_prop n "content" ;;
  vupd <- get_prop n "updatedAt" ;;
  Normal
    match vupd with
    | Some (JNum z) =>
        ({| l_id := vid;
            l_title := nullish vtitle (JStr "Untitled");
            l_content := nullish vcontent (JStr EmptyString);
            l_updatedAt := z |}, k)
    | _ =>
        ({| l_id := vid;
            l_title := nullish vtitle (JStr "Untitled");
            l_content := nullish vcontent (JStr EmptyString);
            l_updatedAt := clock k |}, S k)
    end.

Fixpoint normalize_all (clock : nat -> Z) (k : nat) (l : list json)
  : completion (list Loaded) :=
  match l with
  | [] => Normal []
  | n :: rest =>
      r <- normalize clock k n ;;
      rest' <- normalize_all clock (snd r) rest ;;
      Normal (fst r :: rest')
  end.

Section StorageAdapter.
Context {codec : JSON}.

Definition loadNotesFromStorage (w : Browser) (clock : nat -> Z)
  : list Loaded :=
  match w with
  | None => []
  | Some ls =>
      try_catch
        match getItem ls STORAGE_KEY with
        | None => Normal []
        | Some raw =>
            if falsy raw then Normal []
            else
              parsed <- JSON_parse raw ;;
              match parsed with
              | JArr elems =>
                  kept <- filter_string_id elems ;;
                  mapped <- normalize_all clock 0 kept ;;
                  Normal (Array_sort (by_updatedAt_desc l_updatedAt) mapped)
              | _ => Normal []
              end
        end
        []
  end.

Definition saveNotesToStorage (w : Browser) (notes : list Note) : Browser :=
  match w with
  | None => None
  | Some ls =>
      Some (try_catch
              (setItem ls STORAGE_KEY (JSON_stringify (json_of_notes notes)))
              ls)
  end.
End StorageAdapter.

(** ** Identifier generation *)

(** [now] is the reading of [Date.now()], [rnd] is
    [Math.random().toString(36)]. *)
Definition generateId (now : Z) (rnd : string) : string :=
  toUpperCase (toString36 now ++ slice 2 8 rnd).

(** ** The note store

    The three pieces of component state.  [selectedId] is [null] or a
    string. *)

Record State : Type := {
  notes : list Note;
  selectedId : option string;
  query : string
}.

Definition initial : State :=
  {| notes := []; selectedId := None; query := EmptyString |}.

Definition setNotes (ns : list Note) (st : State) : State :=
  {| notes := ns; selectedId := selectedId st; query := query st |}.

Definition setSelectedId (sel : option string) (st : State) : State :=
  {| notes := notes st; selectedId := sel; query := query st |}.

Definition setQuery (q : string) (st : State) : State :=
  {| notes := notes st; selectedId := selectedId st; query := q |}.

(** [n.id === selectedId] *)
Definition is_selected (sel : option string) (n : Note) : bool :=
  match sel with
  | Some s => String.eqb (id n) s
  | None => false
  end.

(** [notes.find((n) => n.id === selectedId) ?? null] *)
Definition selectedNote (st : State) : option Note :=
  find (is_selected (selectedId st)) (notes st).

(** The effect on [notes] and [selectedId]: with nothing selected ([null] or
    the empty string) and a note in the collection, select the first. *)
Definition autoSelect (st : State) : State :=
  match selectedId st, notes st with
  | None, n :: _ => setSelectedId (Some (id n)) st
  | Some EmptyString, n :: _ => setSelectedId (Some (id n)) st
  | _, _ => st
  end.

Definition matches (q : string) (n : Note) : bool :=
  includes (toLowerCase (title n)) q || includes (toLowerCase (content n)) q.

Definition filteredNotes (st : State) : list Note :=
  let q := toLowerCase (trim (query st)) in
  if falsy q then notes st
  else filter (matches q) (notes st).

(** [clock 0] is the reading inside [generateId], [clock 1] the one for
    [updatedAt]. *)
Definition createNote (clock : nat -> Z) (rnd : string) (st : State) : State :=
  let newNote := {| id := generateId (clock 0%nat) rnd;
                    title := "Untitled";
                    content := EmptyString;
                    updatedAt := clock 1%nat |} in
  setSelectedId (Some (id newNote)) (setNotes (newNote :: notes st) st).

(** [selectedId === i] *)
Definition selected_is (sel : option string) (i : string) : bool :=
  match sel with
  | Some s => String.eqb s i
  | None => false
  end.

Definition deleteNote (i : string) (st : State) : State :=
  let st' :=
    setNotes (filter (fun n => negb (String.eqb (id n) i)) (notes st)) st in
  if selected_is (selectedId st) i then setSelectedId None st' else st'.

(** The argument of [updateSelected]: each field present or not. *)
Record Partial : Type := {
  p_title : option string;
  p_content : option string
}.

Definition or_else (o : option string) (d : string) : string :=
  match o with
  | Some s => s
  | None => d
  end.

(** [{ ...n, ...partial, updatedAt: Date.now() }] *)
Definition patch (partial : Partial) (now : Z) (n : Note) : Note :=
  {| id := id n;
     title := or_else (p_title partial) (title n);
     content := or_else (p_content partial) (content n);
     updatedAt := now |}.

(** The callback of [prev.map] in [updateSelected]; the clock is read once
    for every note that carries the selected id, [k] counting the readings
    made so far. *)
Fixpoint patch_selected (sel : string) (partial : Partial) (clock : nat -> Z)
    (k : nat) (l : list Note) : list Note :=
  match l with
  | [] => []
  | n :: rest =>
      if String.eqb (id n) sel
      then patch partial (clock k) n
             :: patch_selected sel partial clock (S k) rest
      else n :: patch_selected sel partial clock k rest
  end.

Definition updateSelected (partial : Partial) (clock : nat -> Z) (st : State)
  : State :=
  match selectedNote st with
  | None => st
  | Some sel =>
      setNotes
        (Array_sort (by_updatedAt_desc updatedAt)
           (patch_selected (id sel) partial clock 0 (notes st)))
        st
  end.

(** ** Merge importer *)

(** [Map<string, Note>]: the entries in insertion order.  [set] on a key
    that is present replaces the value where it stands. *)
Definition NoteMap : Type := list (string * Note).

Fixpoint Map_get (k : string) (m : NoteMap) : option Note :=
  match m with
  | [] => None
  | (k', v) :: rest => if String.eqb k k' then Some v else Map_get k rest
  end.

Fixpoint Map_set (k : string) (v : Note) (m : NoteMap) : NoteMap :=
  match m with
  | [] => [(k, v)]
  | (k', v') :: rest =>
      if String.eqb k k' then (k', v) :: rest else (k', v') :: Map_set k v rest
  end.

Definition Map_values (m : NoteMap) : list Note := map snd m.

(** The callback of [forEach]. *)
Definition merge_step (byId : NoteMap) (n : Note) : NoteMap :=
  match Map_get (id n) byId with
  | None => Map_set (id n) n byId
  | Some existing =>
      if updatedAt n >? updatedAt existing then Map_set (id n) n byId
      else byId
  end.

(** From [new Map] to the sorted [merged]. *)
Definition mergeNotes (current imported : list Note) : list Note :=
  Array_sort (by_updatedAt_desc updatedAt)
    (Map_values (fold_left merge_step (current ++ imported) [])).

(** An element of the parsed array read at the type the cast [as Note[]]
    gives it. *)
Definition Note_of_json (v : json) : option Note :=
  match v with
  | JObj fields =>
      match lookup "id" fields, lookup "title" fields,
            lookup "content" fields, lookup "updatedAt" fields with
      | Some (JStr i), Some (JStr t), Some (JStr c), Some (JNum u) =>
          Some {| id := i; title := t; content := c; updatedAt := u |}
      | _, _, _, _ => None
      end
  | _ => None
  end.

Fixpoint Notes_of_json (l : list json) : option (list Note) :=
  match l with
  | [] => Some []
  | v :: rest =>
      match Note_of_json v, Notes_of_json rest with
      | Some n, Some ns => Some (n :: ns)
      | _, _ => None
      end
  end.

Definition is_null (v : json) : bool :=
  match v with
  | JNull => true
  | _ => false
  end.

(** What the [onload] handler of [importNotes] does to the collection.
    [Untyped]: the array holds an element that is neither [null] nor a note
    record, and the handler stores values the type [Note] does not
    describe. *)
Inductive Import : Type :=
| Unchanged
| Replaced (merged : list Note)
| Untyped.

Section MergeImporter.
Context {codec : JSON}.

(** [text] is [String(reader.result)].  A [null] element makes [n.id]
    throw inside [forEach], before [setNotes]. *)
Definition importNotes (current : list Note) (text : string) : Import :=
  match JSON_parse text with
  | Throws => Unchanged
  | Normal (JArr elems) =>
      if existsb is_null elems then Unchanged
      else
        match Notes_of_json elems with
        | Some imported => Replaced (mergeNotes current imported)
        | None => Untyped
        end
  | Normal _ => Unchanged
  end.

Definition applyImport (r : Import) (st : State) : option State :=
  match r with
  | Unchanged => Some st
  | Replaced merged => Some (setNotes merged st)
  | Untyped => None
  end.
End MergeImporter.

(** ** Debounced persistence

    The timers of the browser and the effect on [notes].  [setTimeout] hands
    out positive handles; [clearTimeout] forgets the timeout with the given
    handle, if there is one. *)

Record Timer : Type := {
  handle : nat;
  due : Z;
  captured : list Note
}.

(** The mounted page as the effect sees it: the time in milliseconds, the
    ref [saveTimer.current], the timeouts scheduled and neither run nor
    cleared, the browser's storage, and the log of the calls of
    [saveNotesToStorage] (time and argument, latest last). *)
Record Page : Type := {
  time : Z;
  saveTimer : option nat;
  pending : list Timer;
  next_handle : nat;
  browser : Browser;
  saved : list (Z * list Note)
}.

Definition clearTimeout (h : nat) (p : Page) : Page :=
  {| time := time p;
     saveTimer := saveTimer p;
     pending := filter (fun t => negb (Nat.eqb (handle t) h)) (pending p);
     next_handle := next_handle p;
     browser := browser p;
     saved := saved p |}.

(** [if (saveTimer.current) window.clearTimeout(saveTimer.current)]: [null]
    and [0] are falsy. *)
Definition clear_current (p : Page) : Page :=
  match saveTimer p with
  | Some (S h) => clearTimeout (S h) p
  | _ => p
  end.

Definition DEBOUNCE : Z := 300.

(** [saveTimer.current = window.setTimeout(() => saveNotesToStorage(ns), 300)] *)
Definition schedule_save (ns : list Note) (p : Page) : Page :=
  {| time := time p;
     saveTimer := Some (next_handle p);
     pending := pending p ++ [{| handle := next_handle p;
                                 due := time p + DEBOUNCE;
                                 captured := ns |}];
     next_handle := S (next_handle p);
     browser := browser p;
     saved := saved p |}.

(** The body of the effect, for a render whose collection is [ns]. *)
Definition effect_body (ns : list Note) (p : Page) : Page :=
  schedule_save ns (clear_current p).

(** The function the effect returns. *)
Definition effect_cleanup (p : Page) : Page := clear_current p.

(** What follows [setNotes] with a new array: the cleanup of the previous
    run of the effect, then its body. *)
Definition rerender (ns : list Note) (p : Page) : Page :=
  effect_body ns (effect_cleanup p).

Section Debounce.
Context {codec : JSON}.

(** The first render has the empty collection. *)
Definition mount (t0 : Z) (w : Browser) : Page :=
  effect_body []
    {| time := t0; saveTimer := None; pending := []; next_handle := 1;
       browser := w; saved := [] |}.

(** A timeout runs: the callback saves the collection it captured. *)
Definition fire (p : Page) (t : Timer) : Page :=
  {| time := time p;
     saveTimer := saveTimer p;
     pending := pending p;
     next_handle := next_handle p;
     browser := saveNotesToStorage (browser p) (captured t);
     saved := saved p ++ [(due t, captured t)] |}.

(** [dt] milliseconds pass: the timeouts due by then run, the earliest
    first. *)
Definition advance (dt : Z) (p : Page) : Page :=
  let now := time p + dt in
  let ready := filter (fun t => due t <=? now) (pending p) in
  let rest := filter (fun t => negb (due t <=? now)) (pending p) in
  fold_left fire (Array_sort (fun a b => due a - due b) ready)
    {| time := now;
       saveTimer := saveTimer p;
       pending := rest;
       next_handle := next_handle p;
       browser := browser p;
       saved := saved p |}.

(** A burst: each mutation arrives [gap] milliseconds after the one
    before. *)
Fixpoint burst (ms : list (Z * list Note)) (p : Page) : Page :=
  match ms with
  | [] => p
  | (gap, ns) :: rest => burst rest (rerender ns (advance gap p))
  end.

(** The pages a mounted component can be in. *)
Inductive page_reachable : Page -> Prop :=
| page_mount : forall t0 w, page_reachable (mount t0 w)
| page_rerender : forall ns p,
    page_reachable p -> page_reachable (rerender ns p)
| page_advance : forall dt p,
    0 <= dt -> page_reachable p -> page_reachable (advance dt p).
End Debounce.

(** [JSON.stringify(value, null, gap)] of the platform. *)
Class JSONIndent : Type := {
  JSON_stringify_indent : json -> nat -> string
}.

(** ** A JSON codec to run the page on

    A printer and a parser for JSON text whose number literals are integers
    and whose strings hold code units below 256: the fragment in which the
    page's own notes are written.  It instantiates [JSON] wherever a run on
    concrete text is evaluated. *)

Module JsonText.
Local Open Scope string_scope.

Definition dquote : ascii := ascii_of_nat 34.
Definition backslash : ascii := ascii_of_nat 92.

Definition hex_digit (n : nat) : ascii :=
  if (n <? 10)%nat then ascii_of_nat (48 + n) else ascii_of_nat (87 + n).

Definition escaped (c : ascii) : string :=
  String backslash (String c EmptyString).

Definition escape_char (c : ascii) : string :=
  let n := code c in
  if (n =? 34)%nat then escaped dquote
  else if (n =? 92)%nat then escaped backslash
  else if (n =? 8)%nat then escaped "b"
  else if (n =? 9)%nat then escaped "t"
  else if (n =? 10)%nat then escaped "n"
  else if (n =? 12)%nat then escaped "f"
  else if (n =? 13)%nat then escaped "r"
  else if (n <? 32)%nat
       then escaped "u" ++ "00"
            ++ String (hex_digit (n / 16))
                 (String (hex_digit (n mod 16)) EmptyString)
  else String c EmptyString.

Fixpoint escape (s : string) : string :=
  match s with
  | EmptyString => EmptyString
  | String c s' => escape_char c ++ escape s'
  end.

Definition quote (s : string) : string :=
  String dquote (escape s ++ String dquote EmptyString).

Definition decimal (z : Z) : string :=
  DecimalString.NilEmpty.string_of_int (Z.to_int z).

Fixpoint stringify (v : json) : string :=
  match v with
  | JNull => "null"
  | JBool true => "true"
  | JBool false => "false"
  | JNum z => decimal z
  | JStr s => quote s
  | JArr elems =>
      "[" ++ (fix items (l : list json) : string :=
                match l with
                | [] => EmptyString
                | [x] => stringify x
                | x :: rest => stringify x ++ "," ++ items rest
                end) elems ++ "]"
  | JObj fields =>
      "{" ++ (fix members (l : list (string * json)) : string :=
                match l with
                | [] => EmptyString
                | [(k, x)] => quote k ++ ":" ++ stringify x
                | (k, x) :: rest =>
                    quote k ++ ":" ++ stringify x ++ "," ++ members rest
                end) fields ++ "}"
  end.

(** *** Parsing *)

Definition json_space (c : ascii) : bool :=
  let n := code c in
  ((n =? 32) || (n =? 9) || (n =? 10) || (n =? 13))%nat.

Fixpoint skip (s : string) : string :=
  match s with
  | String c s' => if json_space c then skip s' else s
  | EmptyString => s
  end.

Definition is_digit (c : ascii) : bool :=
  let n := code c in ((48 <=? n) && (n <=? 57))%nat.

Fixpoint span_digits (s : string) : string * string :=
  match s with
  | String c s' =>
      if is_digit c
      then let (d, r) := span_digits s' in (String c d, r)
      else (EmptyString, s)
  | EmptyString => (EmptyString, s)
  end.

(** A run of digits without a superfluous leading zero, not followed by a
    fraction or an exponent. *)
Definition parse_nat (s : string) : option (Z * string) :=
  let (d, r) := span_digits s in
  match d with
  | EmptyString => None
  | String "0" (String _ _) => None
  | _ =>
      match r with
      | String "." _ | String "e" _ | String "E" _ => None
      | _ =>
          match DecimalString.NilEmpty.uint_of_string d with
          | Some u => Some (Z.of_uint u, r)
          | None => None
          end
      end
  end.

Definition hex_value (c : ascii) : option nat :=
  let n := code c in
  if ((48 <=? n) && (n <=? 57))%nat then Some (n - 48)%nat
  else if ((97 <=? n) && (n <=? 102))%nat then Some (n - 87)%nat
  else if ((65 <=? n) && (n <=? 70))%nat then Some (n - 55)%nat
  else None.

(** The text after the opening quote, up to the closing one. *)
Fixpoint parse_chars (s : string) : option (string * string) :=
  match s with
  | EmptyString => None
  | String c s' =>
      if (code c =? 34)%nat then Some (EmptyString, s')
      else if (code c <? 32)%nat then None
      else if (code c =? 92)%nat then
        match s' with
        | String e s'' =>
            let plain (x : nat) :=
              match parse_chars s'' with
              | Some (t, r) => Some (String (ascii_of_nat x) t, r)
              | None => None
              end in
            match e with
            | "b"%char => plain 8%nat
            | "t"%char => plain 9%nat
            | "n"%char => plain 10%nat
            | "f"%char => plain 12%nat
            | "r"%char => plain 13%nat
            | "/"%char => plain 47%nat
            | "u"%char =>
                match s'' with
                | String "0" (String "0" (String h (String l s3))) =>
                    match hex_value h, hex_value l, parse_chars s3 with
                    | Some a, Some b, Some (t, r) =>
                        Some (String (ascii_of_nat (16 * a + b)) t, r)
                    | _, _, _ => None
                    end
                | _ => None
                end
            | _ =>
                if ((code e =? 34) || (code e =? 92))%nat
                then plain (code e) else None
            end
        | EmptyString => None
        end
      else
        match parse_chars s' with
        | Some (t, r) => Some (String c t, r)
        | None => None
        end
  end.

(** A later member with the key of an earlier one replaces its value
    where the earlier one stands. *)
Fixpoint set_member (k : string) (v : json) (l : list (string * json))
  : list (string * json) :=
  match l with
  | [] => [(k, v)]
  | (k', v') :: rest =>
      if String.eqb k k' then (k', v) :: rest
      else (k', v') :: set_member k v rest
  end.

Definition object_of (members : list (string * json)) : json :=
  JObj (fold_left (fun acc kv => set_member (fst kv) (snd kv) acc)
          members []).

Definition expect (word : string) (v : json) (s : string)
  : option (json * string) :=
  if String.prefix word s
  then Some (v, String.substring (String.length word)
                  (String.length s - String.length word) s)
  else None.

Fixpoint parse_value (fuel : nat) (s : string) : option (json * string) :=
  match fuel with
  | O => None
  | S fuel' =>
      match skip s with
      | String "n" _ => expect "null" JNull (skip s)
      | String "t" _ => expect "true" (JBool true) (skip s)
      | String "f" _ => expect "false" (JBool false) (skip s)
      | String "-" r =>
          match parse_nat r with
          | Some (z, r') => Some (JNum (- z), r')
          | None => None
          end
      | String "[" r =>
          match skip r with
          | String "]" r' => Some (JArr [], r')
          | _ =>
              match parse_elems fuel' r with
              | Some (l, r') => Some (JArr l, r')
              | None => None
              end
          end
      | String "{" r =>
          match skip r with
          | String "}" r' => Some (JObj [], r')
          | _ =>
              match parse_members fuel' r with
              | Some (l, r') => Some (object_of l, r')
              | None => None
              end
          end
      | String c r =>
          if (code c =? 34)%nat then
            match parse_chars r with
            | Some (t, r') => Some (JStr t, r')
            | None => None
            end
          else
            match parse_nat (skip s) with
            | Some (z, r') => Some (JNum z, r')
            | None => None
            end
      | EmptyString => None
      end
  end
with parse_elems (fuel : nat) (s : string) : option (list json * string) :=
  match fuel with
  | O => None
  | S fuel' =>
      match parse_value fuel' s with
      | Some (v, r) =>
          match skip r with
          | String "," r' =>
              match parse_elems fuel' r' with
              | Some (l, r'') => Some (v :: l, r'')
              | None => None
              end
          | String "]" r' => Some ([v], r')
          | _ => None
          end
      | None => None
      end
  end
with parse_members (fuel : nat) (s : string)
  : option (list (string * json) * string) :=
  match fuel with
  | O => None
  | S fuel' =>
      match skip s with
      | String c r =>
          if (code c =? 34)%nat then
            match parse_chars r with
            | Some (k, r1) =>
                match skip r1 with
                | String ":" r2 =>
                    match parse_value fuel' r2 with
                    | Some (v, r3) =>
                        match skip r3 with
                        | String "," r4 =>
                            match parse_members fuel' r4 with
                            | Some (l, r5) => Some ((k, v) :: l, r5)
                            | None => None
                            end
                        | String "}" r4 => Some ([(k, v)], r4)
                        | _ => None
                        end
                    | None => None
                    end
                | _ => None
                end
            | None => None
            end
          else None
      | EmptyString => None
      end
  end.

Definition parse (s : string) : completion json :=
  match parse_value (2 * String.length s + 2) s with
  | Some (v, r) =>
      match skip r with
      | EmptyString => Normal v
      | _ => Throws
      end
  | None => Throws
  end.

Definition codec : JSON :=
  {| JSON_parse := parse; JSON_stringify := stringify |}.

(** *** Printing with an indentation

    [JSON.stringify(v, null, gap)]: every element and member on a line of
    its own, indented by [gap] spaces for each level; an empty array or
    object stays closed on one line. *)

Fixpoint spaces (n : nat) : string :=
  match n with
  | O => EmptyString
  | S n' => String " " (spaces n')
  end.

Definition newline (gap level : nat) : string :=
  String (ascii_of_nat 10) (spaces (gap * level)).

Fixpoint stringify_at (gap level : nat) (v : json) : string :=
  match v with
  | JArr (x :: rest) =>
      "[" ++ newline gap (S level) ++ stringify_at gap (S level) x
      ++ (fix items (l : list json) : string :=
            match l with
            | [] => EmptyString
            | y :: l' =>
                "," ++ newline gap (S level) ++ stringify_at gap (S level) y
                ++ items l'
            end) rest
      ++ newline gap level ++ "]"
  | JObj ((k, x) :: rest) =>
      "{" ++ newline gap (S level) ++ quote k ++ ": "
      ++ stringify_at gap (S level) x
      ++ (fix members (l : list (string * json)) : string :=
            match l with
            | [] => EmptyString
            | (k', y) :: l' =>
                "," ++ newline gap (S level) ++ quote k' ++ ": "
                ++ stringify_at gap (S level) y ++ members l'
            end) rest
      ++ newline gap level ++ "}"
  | _ => stringify v
  end.

Definition stringify_indent (v : json) (gap : nat) : string :=
  stringify_at gap 0 v.

Definition pretty : JSONIndent :=
  {| JSON_stringify_indent := stringify_indent |}.
End JsonText.

(** ** The collections the page can hold *)

(** A loaded record read at the type [Note] that [loadNotesFromStorage]
    declares for it. *)
Definition Note_of_Loaded (r : Loaded) : option Note :=
  match l_id r, l_title r, l_content r with
  | Some (JStr i), JStr t, JStr c =>
      Some {| id := i; title := t; content := c; updatedAt := l_updatedAt r |}
  | _, _, _ => None
  end.

Fixpoint Notes_of_Loaded (l : list Loaded) : option (list Note) :=
  match l with
  | [] => Some []
  | r :: rest =>
      match Note_of_Loaded r, Notes_of_Loaded rest with
      | Some n, Some ns => Some (n :: ns)
      | _, _ => None
      end
  end.

(** A file being read: the [notes] that [importNotes] closed over when the
    file was picked, and the text the read delivers to [onload]. *)
Definition Reading : Type := (list Note * string)%type.

Section Reachability.
Context {codec : JSON}.

(** The states of the store, each with the reads that are under way: the
    first render, the mount effect that stores what was loaded, the
    auto-select effect, and the handlers the view binds.  The list shows
    [filteredNotes], so a click selects or deletes a note shown there.
    Picking a file starts a read and changes nothing yet; when a read
    completes, [onload] merges the file into the [notes] captured at the
    pick and stores the result with [setNotes(merged)], whatever the
    collection has become since. *)
Inductive reachable_with : State -> list Reading -> Prop :=
| reach_with_initial : reachable_with initial []
| reach_with_loaded : forall w clock ns,
    Notes_of_Loaded (loadNotesFromStorage w clock) = Some ns ->
    reachable_with (setNotes ns initial) []
| reach_with_autoSelect : forall st rs,
    reachable_with st rs -> reachable_with (autoSelect st) rs
| reach_with_create : forall clock rnd st rs,
    reachable_with st rs -> reachable_with (createNote clock rnd st) rs
| reach_with_delete : forall n st rs,
    reachable_with st rs -> In n (filteredNotes st) ->
    reachable_with (deleteNote (id n) st) rs
| reach_with_select : forall n st rs,
    reachable_with st rs -> In n (filteredNotes st) ->
    reachable_with (setSelectedId (Some (id n)) st) rs
| reach_with_update : forall partial clock st rs,
    reachable_with st rs -> reachable_with (updateSelected partial clock st) rs
| reach_with_query : forall q st rs,
    reachable_with st rs -> reachable_with (setQuery q st) rs
| reach_with_pick : forall text st rs,
    reachable_with st rs -> reachable_with st (rs ++ [(notes st, text)])
| reach_with_onload : forall captured text st rs1 rs2 st',
    reachable_with st (rs1 ++ (captured, text) :: rs2) ->
    applyImport (importNotes captured text) st = Some st' ->
    reachable_with st' (rs1 ++ rs2).

Definition reachable (st : State) : Prop := exists rs, reachable_with st rs.
End Reachability.

(** Newest first. *)
Definition sorted_desc {A : Type} (key : A -> Z) (l : list A) : Prop :=
  StronglySorted (fun a b => key b <= key a) l.

(** The test of the filter in [loadNotesFromStorage], on an element that
    is not [null]. *)
Definition has_string_id (n : json) : bool :=
  match get_prop n "id" with
  | Normal v => typeof_string v
  | Throws => false
  end.

(** [r] is the normalized form of the stored record [n]: [n] is an object
    whose [id] is a string, which [r] keeps; a [title] that is missing or
    [null] has become ["Untitled"], a [content] that is missing or [null]
    the empty string, and an [updatedAt] that is not a number a reading of
    the clock. *)
Definition normalized_from (clock : nat -> Z) (n : json) (r : Loaded) : Prop :=
  exists fields s,
    n = JObj fields
    /\ lookup "id" fields = Some (JStr s)
    /\ l_id r = Some (JStr s)
    /\ l_title r = match lookup "title" fields with
                   | None | Some JNull => JStr "Untitled"
                   | Some t => t
                   end
    /\ l_content r = match lookup "content" fields with
                     | None | Some JNull => JStr EmptyString
                     | Some c => c
                     end
    /\ match lookup "updatedAt" fields with
       | Some (JNum z) => l_updatedAt r = z
       | _ => exists k, l_updatedAt r = clock k
       end.

(** The stored records that reach the [map] of [loadNotesFromStorage]:
    none when the text is empty or the array holds a [null], on which the
    filter throws. *)
Definition survivors (raw : string) (elems : list json) : list json :=
  if falsy raw || existsb is_null elems then []
  else filter has_string_id elems.

(** [v] is, among the notes of [all] with its id, the first in iteration
    order of those with the greatest [updatedAt]: whatever comes before it
    is strictly older, whatever comes after it is not newer. *)
Definition first_latest (all : list Note) (v : Note) : Prop :=
  exists l1 l2,
    all = l1 ++ v :: l2
    /\ (forall x, In x l1 -> id x = id v -> updatedAt x < updatedAt v)
    /\ (forall x, In x l2 -> id x = id v -> updatedAt x <= updatedAt v).

(** The same with the tie going to the last: whatever comes before is not
    newer, whatever comes after is strictly older. *)
Definition last_latest (all : list Note) (v : Note) : Prop :=
  exists l1 l2,
    all = l1 ++ v :: l2
    /\ (forall x, In x l1 -> id x = id v -> updatedAt x <= updatedAt v)
    /\ (forall x, In x l2 -> id x = id v -> updatedAt x < updatedAt v).

(** [s] contains [q] up to case: a stretch of [s] and [q] have the same
    lower-case form. *)
Definition contains_ci (s q : string) : Prop :=
  exists pre u post,
    s = (pre ++ u ++ post)%string /\ toLowerCase u = toLowerCase q.

Fixpoint all_whitespace (s : string) : bool :=
  match s with
  | EmptyString => true
  | String c s' => isWhiteSpace c && all_whitespace s'
  end.

(** The page has the timeout for [ns] pending, due at [d], and no other;
    the ref holds its handle. *)
Definition armed (p : Page) (ns : list Note) (d : Z) : Prop :=
  exists h,
    pending p = [{| handle := h; due := d; captured := ns |}]
    /\ saveTimer p = Some h /\ h <> 0%nat
    /\ next_handle p <> 0%nat /\ time p < d.

(** No timeout is pending, or one is and the ref holds its handle. *)
Definition page_inv (p : Page) : Prop :=
  next_handle p <> 0%nat
  /\ (pending p = [] \/ exists ns d, armed p ns d).

(** The time a burst takes, and the collection of its last mutation. *)
Definition total_gap (ms : list (Z * list Note)) : Z :=
  fold_right Z.add 0 (map fst ms).

Definition last_collection (ns0 : list Note) (ms : list (Z * list Note))
  : list Note :=
  last (map snd ms) ns0.

(** What the map holds once [forEach] has gone through [l]. *)
Definition merge_inv (l : list Note) (m : NoteMap) : Prop :=
  NoDup (map fst m)
  /\ (forall k v, In (k, v) m -> k = id v /\ first_latest l v)
  /\ (forall x, In x l -> In (id x) (map fst m)).

(** [n] is not the note of id [sel]. *)
Definition other_than (sel : string) (n : Note) : bool :=
  negb (String.eqb (id n) sel).

(** The integer a string of base-36 digits stands for, read after [acc]. *)
Definition digit_value (c : ascii) : Z :=
  let n := Z.of_nat (code c) in
  if n <? 58 then n - 48 else n - 87.

Fixpoint value36 (acc : Z) (s : string) : Z :=
  match s with
  | EmptyString => acc
  | String c s' => value36 (36 * acc + digit_value c) s'
  end.

(** ** Export *)

(** What [exportNotes] hands to the browser: the text of the blob, its
    media type, and the file name on the anchor it clicks. *)
Record Download : Type := {
  data : string;
  blob_type : string;
  download : string
}.

Section Exporting.
Context {pretty : JSONIndent}.

Definition exportNotes (ns : list Note) : Download :=
  {| data := JSON_stringify_indent (json_of_notes ns) 2;
     blob_type := "application/json";
     download := "quick-notes-backup.json" |}.
End Exporting.

(** ** The list as rendered *)

(** [n.title.trim() || "Untitled"] *)
Definition displayTitle (n : Note) : string :=
  let t := trim (title n) in
  if falsy t then "Untitled" else t.

(** ** Reading the model *)

(** The string the browser holds under [k]. *)
Definition read (w : Browser) (k : string) : option string :=
  match w with
  | Some ls => getItem ls k
  | None => None
  end.


(** The entry of the map for a note. *)
Definition entry (n : Note) : string * Note := (id n, n).

(** A digit of [toString(36)]: [0]..[9] or [a]..[z]. *)
Definition is_digit36 (c : ascii) : bool :=
  let n := code c in
  ((48 <=? n) && (n <=? 57) || (97 <=? n) && (n <=? 122))%nat.

Fixpoint string_forall (P : ascii -> bool) (s : string) : bool :=
  match s with
  | EmptyString => true
  | String c s' => P c && string_forall P s'
  end.

Definition is_lower_letter (c : ascii) : bool :=
  let n := code c in ((97 <=? n) && (n <=? 122))%nat.

(** A selected id is the id of a note of the collection. *)
Definition selection_valid (st : State) : Prop :=
  forall s, selectedId st = Some s -> In s (map id (notes st)).

(** ** Sample data *)

Module Sample.
Definition a100 : Note :=
  {| id := "A"; title := "a"; content := "old"; updatedAt := 100 |}.
Definition a200 : Note :=
  {| id := "A"; title := "a"; content := "new"; updatedAt := 200 |}.
Definition b50 : Note :=
  {| id := "B"; title := "Shopping"; content := "Milk and bread";
     updatedAt := 50 |}.

(** A storage that holds [raw] under every key and admits every write. *)
Definition holding (raw : option string) : Storage :=
  {| getItem := fun _ => raw; admits := fun _ _ => true |}.

(** A full storage: every write is refused. *)
Definition full (raw : option string) : Storage :=
  {| getItem := fun _ => raw; admits := fun _ _ => false |}.

Definition clock (k : nat) : Z := 1700000000000 + Z.of_nat k.

(** A stored array with a record that lacks most fields, a record
    without id, a number, and a record whose title is [null]. *)
Definition stored : json :=
  JArr [JObj [("id", JStr "A"); ("updatedAt", JStr "soon")];
        JObj [("title", JStr "no id")];
        JNum 3;
        JObj [("id", JStr "B"); ("title", JNull); ("content", JStr "c");
              ("updatedAt", JNum 7)]].

Definition state : State :=
  {| notes := [a200; b50]; selectedId := Some "B"; query := " MILK " |}.
End Sample.

(** * Properties *)

(** ** The sort *)

Section SortFacts.
Context {A : Type}.
Variable key : A -> Z.

Let cmp := by_updatedAt_desc key.

Lemma sort_insert_perm (x : A) (l : list A) :
  Permutation (x :: l) (sort_insert cmp x l).
Proof.
  induction l as [|y ys IH]; simpl.
  - apply Permutation_refl.
  - destruct (cmp x y <=? 0).
    + apply Permutation_refl.
    + eapply perm_trans; [apply perm_swap|]. now apply perm_skip.
Qed.

Lemma Array_sort_perm (l : list A) : Permutation l (Array_sort cmp l).
Proof.
  induction l as [|x xs IH]; simpl.
  - apply perm_nil.
  - eapply perm_trans; [|apply sort_insert_perm]. now apply perm_skip.
Qed.

Lemma sort_insert_sorted (x : A) (l : list A) :
  sorted_desc key l -> sorted_desc key (sort_insert cmp x l).
Proof.
  unfold sorted_desc.
  induction l as [|y ys IH]; simpl; intros Hs.
  - constructor; [constructor | constructor].
  - inversion Hs as [|? ? Hys Hall]; subst.
    destruct (cmp x y <=? 0) eqn:E.
    + unfold cmp, by_updatedAt_desc in E. apply Z.leb_le in E.
      constructor; [assumption|].
      constructor; [lia|].
      eapply Forall_impl; [|exact Hall]. simpl. intros; lia.
    + unfold cmp, by_updatedAt_desc in E. apply Z.leb_gt in E.
      constructor; [now apply IH|].
      eapply Permutation_Forall; [apply sort_insert_perm|].
      constructor; [lia | assumption].
Qed.

Lemma Array_sort_sorted (l : list A) : sorted_desc key (Array_sort cmp l).
Proof.
  induction l as [|x xs IH]; simpl.
  - constructor.
  - now apply sort_insert_sorted.
Qed.

(** Stability: a collection that is in order already is left as it is. *)
Lemma Array_sort_fixed (l : list A) :
  sorted_desc key l -> Array_sort cmp l = l.
Proof.
  unfold sorted_desc.
  induction l as [|x xs IH]; simpl; intros Hs; [reflexivity|].
  inversion Hs as [|? ? Hxs Hall]; subst.
  rewrite IH by assumption.
  destruct xs as [|y ys]; [reflexivity|]. simpl.
  inversion Hall as [|? ? Hy _]; subst.
  unfold cmp, by_updatedAt_desc.
  destruct (key y - key x <=? 0) eqn:E; [reflexivity|].
  apply Z.leb_gt in E. lia.
Qed.

Lemma Array_sort_In (x : A) (l : list A) :
  In x (Array_sort cmp l) <-> In x l.
Proof.
  split; intros H.
  - eapply Permutation_in; [apply Permutation_sym, Array_sort_perm | exact H].
  - eapply Permutation_in; [apply Array_sort_perm | exact H].
Qed.
End SortFacts.

(** The sort sees a collection only through the key. *)
Lemma Array_sort_map {A B : Type} (f : A -> B) (ka : A -> Z) (kb : B -> Z)
    (l : list A) :
  (forall a, kb (f a) = ka a) ->
  Array_sort (by_updatedAt_desc kb) (map f l)
  = map f (Array_sort (by_updatedAt_desc ka) l).
Proof.
  intros Hk. induction l as [|x xs IH]; simpl; [reflexivity|].
  rewrite IH. generalize (Array_sort (by_updatedAt_desc ka) xs) as s.
  induction s as [|y ys IHs]; simpl; [reflexivity|].
  unfold by_updatedAt_desc at 1 3. rewrite !Hk.
  destruct (ka y - ka x <=? 0); simpl; [reflexivity|]. now rewrite IHs.
Qed.

(** ** Storage adapter *)

Lemma filter_string_id_notes (ns : list Note) :
  filter_string_id (map json_of_Note ns) = Normal (map json_of_Note ns).
Proof.
  induction ns as [|n ns IH]; simpl; [reflexivity|].
  rewrite IH. reflexivity.
Qed.

Lemma normalize_all_notes (clock : nat -> Z) (k : nat) (ns : list Note) :
  normalize_all clock k (map json_of_Note ns) = Normal (map loaded_of_Note ns).
Proof.
  induction ns as [|n ns IH]; simpl; [reflexivity|].
  rewrite IH. reflexivity.
Qed.

Lemma Notes_of_Loaded_notes (ns : list Note) :
  Notes_of_Loaded (map loaded_of_Note ns) = Some ns.
Proof.
  induction ns as [|[i t c u] ns IH]; simpl; [reflexivity|].
  rewrite IH. reflexivity.
Qed.

Lemma sorted_desc_map {A B : Type} (f : A -> B) (ka : A -> Z) (kb : B -> Z)
    (l : list A) :
  (forall a, kb (f a) = ka a) ->
  sorted_desc ka l -> sorted_desc kb (map f l).
Proof.
  intros Hk. unfold sorted_desc.
  induction 1 as [|x xs Hs IH Hall]; simpl; constructor; [assumption|].
  apply Forall_map. eapply Forall_impl; [|exact Hall].
  simpl. intros a Ha. now rewrite !Hk.
Qed.

Lemma survivors_In (raw : string) (elems : list json) (n : json) :
  In n (survivors raw elems) -> In n elems /\ has_string_id n = true.
Proof.
  unfold survivors. destruct (falsy raw || existsb is_null elems).
  - intros [].
  - apply filter_In.
Qed.

Lemma survivors_all (raw : string) (elems : list json) :
  raw <> EmptyString -> existsb is_null elems = false ->
  survivors raw elems = filter has_string_id elems.
Proof.
  intros Hraw Hnull. unfold survivors. rewrite Hnull.
  destruct raw; [contradiction | reflexivity].
Qed.

Lemma Forall2_In_l {A B : Type} (R : A -> B -> Prop) (l : list A)
    (l' : list B) (a : A) :
  Forall2 R l l' -> In a l -> exists b, In b l' /\ R a b.
Proof.
  induction 1 as [|x y l l' Hxy HF IH]; intros Hin; [destruct Hin|].
  destruct Hin as [<- | Hin].
  - exists y. split; [now left | assumption].
  - destruct (IH Hin) as (b & Hb & Hab). exists b. split; [now right | assumption].
Qed.

Lemma Forall2_In_r {A B : Type} (R : A -> B -> Prop) (l : list A)
    (l' : list B) (b : B) :
  Forall2 R l l' -> In b l' -> exists a, In a l /\ R a b.
Proof.
  induction 1 as [|x y l l' Hxy HF IH]; intros Hin; [destruct Hin|].
  destruct Hin as [<- | Hin].
  - exists x. split; [now left | assumption].
  - destruct (IH Hin) as (a & Ha & Hab). exists a. split; [now right | assumption].
Qed.

Section StorageFacts.
Context {codec : JSON}.

(** When the quota refuses the write, the durable copy stays as it was. *)
Lemma save_refused (ls : Storage) (ns : list Note) :
  admits ls STORAGE_KEY (JSON_stringify (json_of_notes ns)) = false ->
  saveNotesToStorage (Some ls) ns = Some ls.
Proof.
  intros H. unfold saveNotesToStorage, setItem. now rewrite H.
Qed.

Lemma load_of_text (ls : Storage) (clock : nat -> Z) (raw : string)
    (elems : list json) :
  getItem ls STORAGE_KEY = Some raw ->
  falsy raw = false ->
  JSON_parse raw = Normal (JArr elems) ->
  loadNotesFromStorage (Some ls) clock
  = try_catch
      (kept <- filter_string_id elems ;;
       mapped <- normalize_all clock 0 kept ;;
       Normal (Array_sort (by_updatedAt_desc l_updatedAt) mapped))
      [].
Proof.
  intros Hg Hf Hp. unfold loadNotesFromStorage.
  rewrite Hg, Hf, Hp. reflexivity.
Qed.

(** C3: a collection of notes that is saved and then loaded comes back
    as the same notes, newest first: the loaded collection is the
    original put in descending order of [updatedAt] by the stable sort,
    and the original itself when it was in that order.  No field is
    normalized.  The write is one the storage admits, and the codec gives
    back the value it printed. *)
Theorem save_then_load (ls : Storage) (ns : list Note) (clock : nat -> Z) :
  admits ls STORAGE_KEY (JSON_stringify (json_of_notes ns)) = true ->
  JSON_parse (JSON_stringify (json_of_notes ns)) = Normal (json_of_notes ns) ->
  JSON_parse EmptyString = Throws ->
  let reloaded :=
    loadNotesFromStorage (saveNotesToStorage (Some ls) ns) clock in
  Notes_of_Loaded reloaded
    = Some (Array_sort (by_updatedAt_desc updatedAt) ns)
  /\ sorted_desc l_updatedAt reloaded
  /\ Permutation (map loaded_of_Note ns) reloaded
  /\ (sorted_desc updatedAt ns -> reloaded = map loaded_of_Note ns).
Proof.
  intros Hadm Hrt Hempty reloaded.
  assert (Hload : reloaded
            = map loaded_of_Note (Array_sort (by_updatedAt_desc updatedAt) ns)).
  { subst reloaded. unfold saveNotesToStorage, setItem. rewrite Hadm.
    cbv [try_catch].
    erewrite load_of_text with (raw := JSON_stringify (json_of_notes ns))
                               (elems := map json_of_Note ns).
    - rewrite filter_string_id_notes. simpl.
      rewrite normalize_all_notes. simpl.
      now apply Array_sort_map.
    - cbv [getItem]. now rewrite String.eqb_refl.
    - destruct (JSON_stringify (json_of_notes ns)) eqn:E; [|reflexivity].
      rewrite Hempty in Hrt. discriminate.
    - exact Hrt. }
  rewrite Hload. repeat split.
  - apply Notes_of_Loaded_notes.
  - apply sorted_desc_map with (ka := updatedAt); [reflexivity|].
    apply Array_sort_sorted.
  - apply Permutation_map. apply Array_sort_perm.
  - intros Hs. now rewrite Array_sort_fixed.
Qed.

Lemma filter_string_id_throws (l : list json) :
  existsb is_null l = true -> filter_string_id l = Throws.
Proof.
  induction l as [|n l IH]; simpl; [discriminate|].
  destruct n; simpl; try (intros H; rewrite (IH H); reflexivity).
  reflexivity.
Qed.

Lemma filter_string_id_normal (l : list json) :
  existsb is_null l = false ->
  filter_string_id l = Normal (filter has_string_id l).
Proof.
  induction l as [|n l IH]; simpl; [reflexivity|].
  destruct n; simpl; try discriminate;
    intros H; rewrite (IH H); reflexivity.
Qed.

Lemma has_string_id_object (n : json) :
  has_string_id n = true ->
  exists fields s, n = JObj fields /\ lookup "id" fields = Some (JStr s).
Proof.
  destruct n; simpl; try discriminate.
  unfold has_string_id. simpl.
  destruct (lookup "id" fields) as [[| | |s| |]|] eqn:E; try discriminate.
  intros _. now exists fields, s.
Qed.

Lemma normalize_normalized (clock : nat -> Z) (k : nat) (n : json) :
  has_string_id n = true ->
  exists r k', normalize clock k n = Normal (r, k')
               /\ normalized_from clock n r.
Proof.
  intros H. destruct (has_string_id_object n H) as (fields & s & -> & Hid).
  unfold normalize. cbn [get_prop bind]. rewrite Hid.
  destruct (lookup "updatedAt" fields) as [[| |z| | |]|] eqn:Eu;
    eexists; eexists; (split; [reflexivity|]);
    exists fields, s; cbn [l_id l_title l_content l_updatedAt];
    rewrite Eu; unfold nullish.
  all: repeat split; try reflexivity; try assumption; try (now exists k).
Qed.

Lemma normalize_all_normalized (clock : nat -> Z) (l : list json) :
  Forall (fun n => has_string_id n = true) l ->
  forall k, exists mapped,
    normalize_all clock k l = Normal mapped
    /\ Forall2 (normalized_from clock) l mapped.
Proof.
  induction 1 as [|n l Hn Hl IH]; intros k; simpl.
  - exists []. split; [reflexivity | constructor].
  - destruct (normalize_normalized clock k n Hn) as (r & k' & -> & Hr).
    cbn [bind snd fst].
    destruct (IH k') as (mapped & -> & Hm). cbn [bind].
    exists (r :: mapped). split; [reflexivity | now constructor].
Qed.

(** What [loadNotesFromStorage] returns for a stored array. *)
Lemma load_array (ls : Storage) (clock : nat -> Z) (raw : string)
    (elems : list json) :
  getItem ls STORAGE_KEY = Some raw ->
  JSON_parse raw = Normal (JArr elems) ->
  exists mapped,
    loadNotesFromStorage (Some ls) clock
    = Array_sort (by_updatedAt_desc l_updatedAt) mapped
    /\ Forall2 (normalized_from clock) (survivors raw elems) mapped.
Proof.
  intros Hg Hp. unfold survivors.
  destruct (falsy raw) eqn:Hf; cbn [orb].
  { exists []. split; [|constructor].
    unfold loadNotesFromStorage. now rewrite Hg, Hf. }
  rewrite (load_of_text ls clock raw elems Hg Hf Hp).
  destruct (existsb is_null elems) eqn:Hnull.
  { exists []. split; [|constructor]. now rewrite filter_string_id_throws. }
  rewrite (filter_string_id_normal _ Hnull). cbn [bind].
  destruct (normalize_all_normalized clock (filter has_string_id elems))
    with (k := 0%nat) as (mapped & Hm & HF).
  { apply Forall_forall. intros n Hn. now apply filter_In in Hn. }
  rewrite Hm. cbn [bind try_catch]. now exists mapped.
Qed.

(** C4, as the loader has it: loading gives the empty collection when the
    key is absent, when its text does not parse, and when the parsed value
    is not an array; and also when the parsed array holds a [null], since
    reading [id] of [null] throws in the filter and the [catch] returns the
    empty collection.  For every stored array the result is in descending
    order of [updatedAt], and every record in it is the normalized form of
    a stored record whose [id] is a string, so a record whose [id] is not a
    string is discarded.  For a stored array without [null] (and a stored
    text that is not empty) every stored record whose [id] is a string is
    in the result in its normalized form, and the result has as many
    records as there are such stored records. *)
Theorem load_cases (ls : Storage) (clock : nat -> Z) :
  let out := loadNotesFromStorage (Some ls) clock in
  (getItem ls STORAGE_KEY = None -> out = [])
  /\ (forall raw, getItem ls STORAGE_KEY = Some raw ->
                  JSON_parse raw = Throws -> out = [])
  /\ (forall raw v, getItem ls STORAGE_KEY = Some raw ->
                    JSON_parse raw = Normal v ->
                    Array_isArray v = false -> out = [])
  /\ (forall raw elems,
        getItem ls STORAGE_KEY = Some raw ->
        JSON_parse raw = Normal (JArr elems) ->
        sorted_desc l_updatedAt out
        /\ (forall r, In r out ->
               exists n, In n elems /\ has_string_id n = true
                         /\ normalized_from clock n r)
        /\ (existsb is_null elems = true -> out = [])
        /\ (raw <> EmptyString -> existsb is_null elems = false ->
            List.length out = List.length (filter has_string_id elems)
            /\ forall n, In n elems -> has_string_id n = true ->
                 exists r, In r out /\ normalized_from clock n r)).
Proof.
  intros out. subst out. repeat apply conj.
  - intros Hg. unfold loadNotesFromStorage. now rewrite Hg.
  - intros raw Hg Hp. unfold loadNotesFromStorage. rewrite Hg, Hp.
    now destruct (falsy raw).
  - intros raw v Hg Hp Hv. unfold loadNotesFromStorage. rewrite Hg, Hp.
    destruct (falsy raw); [reflexivity|].
    destruct v; try reflexivity. discriminate.
  - intros raw elems Hg Hp.
    destruct (load_array ls clock raw elems Hg Hp) as (mapped & Hout & HF).
    rewrite Hout. repeat apply conj.
    + apply Array_sort_sorted.
    + intros r Hr. apply Array_sort_In in Hr.
      destruct (Forall2_In_r _ _ _ _ HF Hr) as (n & Hn & Hnr).
      exists n. apply survivors_In in Hn. tauto.
    + intros Hnull. unfold survivors in HF. rewrite Hnull, orb_true_r in HF.
      inversion HF. reflexivity.
    + intros Hraw Hnull.
      rewrite (survivors_all raw elems Hraw Hnull) in HF. split.
      * rewrite <- (Permutation_length
                     (Array_sort_perm l_updatedAt mapped)).
        symmetry. eapply Forall2_length; eassumption.
      * intros n Hn Hid.
        assert (Hin : In n (filter has_string_id elems))
          by (apply filter_In; tauto).
        destruct (Forall2_In_l _ _ _ _ HF Hin) as (r & Hr & Hnr).
        exists r. split; [now apply Array_sort_In | assumption].
Qed.
End StorageFacts.

(** ** Merge importer *)

Lemma Map_get_None (k : string) (m : NoteMap) :
  Map_get k m = None -> ~ In k (map fst m).
Proof.
  induction m as [|[k' v'] m IH]; simpl; [tauto|].
  destruct (String.eqb k k') eqn:E; [discriminate|].
  apply String.eqb_neq in E. intros H [H1 | H1]; [congruence | now apply IH].
Qed.

Lemma Map_get_Some (k : string) (v : Note) (m : NoteMap) :
  Map_get k m = Some v -> In (k, v) m.
Proof.
  induction m as [|[k' v'] m IH]; simpl; [discriminate|].
  destruct (String.eqb k k') eqn:E.
  - apply String.eqb_eq in E. intros [= ->]. left. now subst.
  - intros H. right. now apply IH.
Qed.

Lemma Map_set_absent (k : string) (v : Note) (m : NoteMap) :
  ~ In k (map fst m) -> Map_set k v m = m ++ [(k, v)].
Proof.
  induction m as [|[k' v'] m IH]; simpl; [reflexivity|].
  intros H. destruct (String.eqb k k') eqn:E.
  - apply String.eqb_eq in E. exfalso. apply H. left. now subst.
  - rewrite IH; [reflexivity | tauto].
Qed.

Lemma Map_set_keys (k : string) (v : Note) (m : NoteMap) :
  In k (map fst m) -> map fst (Map_set k v m) = map fst m.
Proof.
  induction m as [|[k' v'] m IH]; simpl; [tauto|].
  intros H. destruct (String.eqb k k') eqn:E; simpl; [reflexivity|].
  apply String.eqb_neq in E. rewrite IH; [reflexivity|].
  destruct H as [H | H]; [congruence | assumption].
Qed.

Lemma Map_set_entries (k : string) (v : Note) (m : NoteMap) (k' : string)
    (v' : Note) :
  NoDup (map fst m) ->
  In (k', v') (Map_set k v m) ->
  (k' = k /\ v' = v) \/ (k' <> k /\ In (k', v') m).
Proof.
  induction m as [|[k0 v0] m IH]; simpl; intros Hnd Hin.
  - destruct Hin as [[= <- <-] | []]. now left.
  - inversion Hnd as [|? ? Hk0 Hnd']; subst.
    destruct (String.eqb k k0) eqn:E.
    + apply String.eqb_eq in E. subst k0.
      destruct Hin as [[= <- <-] | Hin]; [now left|].
      right. split; [|now right].
      intros ->. apply Hk0. change k with (fst (k, v')). now apply in_map.
    + apply String.eqb_neq in E.
      destruct Hin as [[= <- <-] | Hin].
      * right. split; [congruence | now left].
      * destruct (IH Hnd' Hin) as [H | [H1 H2]]; [now left|].
        right. split; [assumption | now right].
Qed.

Lemma NoDup_keys_functional (m : NoteMap) (k : string) (v v' : Note) :
  NoDup (map fst m) -> In (k, v) m -> In (k, v') m -> v = v'.
Proof.
  induction m as [|[k0 v0] m IH]; simpl; intros Hnd H1 H2; [destruct H1|].
  inversion Hnd as [|? ? Hk0 Hnd']; subst.
  destruct H1 as [[= -> ->] | H1], H2 as [[= <-] | H2].
  - reflexivity.
  - exfalso. apply Hk0. change k with (fst (k, v')). now apply in_map.
  - exfalso. apply Hk0. change k0 with (fst (k0, v)). now apply in_map.
  - now apply IH.
Qed.

Lemma first_latest_bound (l : list Note) (v x : Note) :
  first_latest l v -> In x l -> id x = id v -> updatedAt x <= updatedAt v.
Proof.
  intros (l1 & l2 & -> & H1 & H2) Hin Hid.
  apply in_app_or in Hin. destruct Hin as [Hin | [<- | Hin]].
  - specialize (H1 x Hin Hid). lia.
  - lia.
  - now apply H2.
Qed.

Lemma first_latest_snoc (l : list Note) (v x : Note) :
  first_latest l v -> (id x = id v -> updatedAt x <= updatedAt v) ->
  first_latest (l ++ [x]) v.
Proof.
  intros (l1 & l2 & -> & H1 & H2) Hx.
  exists l1, (l2 ++ [x]). repeat split.
  - now rewrite <- app_assoc.
  - assumption.
  - intros y Hy Hid. apply in_app_or in Hy.
    destruct Hy as [Hy | [<- | []]]; [now apply H2 | now apply Hx].
Qed.

Lemma first_latest_In (l : list Note) (v : Note) :
  first_latest l v -> In v l.
Proof.
  intros (l1 & l2 & -> & _). apply in_or_app. right. now left.
Qed.

Lemma merge_step_inv (l : list Note) (m : NoteMap) (x : Note) :
  merge_inv l m -> merge_inv (l ++ [x]) (merge_step m x).
Proof.
  intros (Hnd & Hent & Hkeys). unfold merge_step.
  destruct (Map_get (id x) m) as [e|] eqn:Hget.
  - pose proof (Map_get_Some _ _ _ Hget) as He.
    assert (Hk : In (id x) (map fst m))
      by (change (id x) with (fst (id x, e)); now apply in_map).
    destruct (Hent _ _ He) as [Hide Hfe].
    destruct (updatedAt x >? updatedAt e) eqn:Hgt.
    + apply Z.gtb_lt in Hgt. repeat split.
      * now rewrite Map_set_keys.
      * destruct (Map_set_entries _ _ _ _ _ Hnd H) as [[-> ->] | [Hne Hin]];
          [reflexivity | now apply (Hent _ _ Hin)].
      * destruct (Map_set_entries _ _ _ _ _ Hnd H) as [[-> ->] | [Hne Hin]].
        -- exists l, []. repeat split; [|intros y []].
           intros y Hy Hid.
           assert (updatedAt y <= updatedAt e)
             by (apply (first_latest_bound l); [assumption.. | congruence]).
           lia.
        -- destruct (Hent _ _ Hin) as [-> Hf].
           apply first_latest_snoc; [assumption|]. congruence.
      * intros y Hy. rewrite Map_set_keys by assumption.
        apply in_app_or in Hy. destruct Hy as [Hy | [<- | []]];
          [now apply Hkeys | assumption].
    + assert (Hle : updatedAt x <= updatedAt e).
      { destruct (Z.gtb_spec (updatedAt x) (updatedAt e)); [discriminate | lia]. }
      repeat split.
      * assumption.
      * now apply (Hent _ _ H).
      * destruct (Hent _ _ H) as [-> Hf].
        apply first_latest_snoc; [assumption|].
        intros Hid. rewrite Hid in He.
        now rewrite (NoDup_keys_functional _ _ _ _ Hnd H He).
      * intros y Hy. apply in_app_or in Hy.
        destruct Hy as [Hy | [<- | []]]; [now apply Hkeys | assumption].
  - pose proof (Map_get_None _ _ Hget) as Habs.
    rewrite (Map_set_absent _ _ _ Habs). repeat split.
    + rewrite map_app. simpl. apply NoDup_app; [assumption | | ].
      * constructor; [tauto | constructor].
      * intros k Hk [<- | []]. contradiction.
    + apply in_app_or in H. destruct H as [H | [[= <- <-] | []]];
        [now apply (Hent _ _ H) | reflexivity].
    + apply in_app_or in H. destruct H as [H | [[= <- <-] | []]].
      * destruct (Hent _ _ H) as [-> Hf].
        apply first_latest_snoc; [assumption|].
        intros Hid. exfalso. apply Habs. rewrite Hid.
        change (id v) with (fst (id v, v)). now apply in_map.
      * exists l, []. repeat split; [|intros y []].
        intros y Hy Hid. exfalso. apply Habs. rewrite <- Hid. now apply Hkeys.
    + intros y Hy. rewrite map_app. apply in_or_app.
      apply in_app_or in Hy. destruct Hy as [Hy | [<- | []]].
      * left. now apply Hkeys.
      * right. now left.
Qed.

Lemma merge_fold_inv (l : list Note) :
  merge_inv l (fold_left merge_step l []).
Proof.
  induction l as [|x l IH] using rev_ind.
  - repeat split; simpl; try constructor; intros; contradiction.
  - rewrite fold_left_app. simpl. now apply merge_step_inv.
Qed.

Lemma Notes_of_json_no_null (elems : list json) (imported : list Note) :
  Notes_of_json elems = Some imported -> existsb is_null elems = false.
Proof.
  revert imported. induction elems as [|v elems IH]; simpl; [reflexivity|].
  intros imported H.
  destruct (Note_of_json v) eqn:Ev; [|discriminate].
  destruct (Notes_of_json elems) eqn:El; [|discriminate].
  rewrite (IH _ eq_refl). destruct v; try discriminate. reflexivity.
Qed.

Lemma merged_ids (m : NoteMap) :
  (forall k v, In (k, v) m -> k = id v) ->
  map id (Map_values m) = map fst m.
Proof.
  unfold Map_values. induction m as [|[k v] m IH]; simpl; intros H;
    [reflexivity|].
  rewrite IH by (intros; apply H; now right).
  now rewrite (H k v) by now left.
Qed.

(** The merge itself, on two typed collections. *)
Lemma mergeNotes_spec (current imported : list Note) :
  let all := current ++ imported in
  let merged := mergeNotes current imported in
  NoDup (map id merged)
  /\ (forall i, In i (map id merged) <-> In i (map id all))
  /\ (forall v, In v merged -> first_latest all v)
  /\ sorted_desc updatedAt merged.
Proof.
  intros all merged. subst merged. unfold mergeNotes. fold all.
  destruct (merge_fold_inv all) as (Hnd & Hent & Hkeys).
  set (m := fold_left merge_step all []) in *.
  assert (Hids : map id (Map_values m) = map fst m)
    by (apply merged_ids; intros k v H; now apply (Hent k v)).
  assert (Hperm : Permutation (Map_values m)
                    (Array_sort (by_updatedAt_desc updatedAt) (Map_values m)))
    by apply Array_sort_perm.
  assert (Hval : forall v, In v (Map_values m) -> first_latest all v).
  { intros v Hv. unfold Map_values in Hv. apply in_map_iff in Hv.
    destruct Hv as ([k v'] & <- & Hin). now apply (Hent _ _ Hin). }
  repeat apply conj.
  - eapply Permutation_NoDup; [apply Permutation_map, Hperm|].
    now rewrite Hids.
  - intros i. split; intros Hi.
    + apply in_map_iff in Hi. destruct Hi as (v & <- & Hv).
      apply Array_sort_In in Hv. apply in_map. apply first_latest_In.
      now apply Hval.
    + apply in_map_iff in Hi. destruct Hi as (x & <- & Hx).
      eapply Permutation_in; [apply Permutation_map, Hperm|].
      rewrite Hids. now apply Hkeys.
  - intros v Hv. apply Array_sort_In in Hv. now apply Hval.
  - apply Array_sort_sorted.
Qed.

Section ImportFacts.
Context {codec : JSON}.

(** C1, as the handler has it: a payload that parses to an array of note
    records replaces the collection by the merge of the current notes and
    the imported ones.  The merge holds one note for every id of either
    collection; the note it holds for an id is the one with the greatest
    [updatedAt], and of several with that same greatest [updatedAt] the
    first in iteration order (the current collection, then the imported
    one); the merge is in descending order of [updatedAt]. *)
Theorem import_merges (current : list Note) (text : string)
    (elems : list json) (imported : list Note) :
  JSON_parse text = Normal (JArr elems) ->
  Notes_of_json elems = Some imported ->
  exists merged,
    importNotes current text = Replaced merged
    /\ NoDup (map id merged)
    /\ (forall i, In i (map id merged) <-> In i (map id (current ++ imported)))
    /\ (forall v, In v merged -> first_latest (current ++ imported) v)
    /\ sorted_desc updatedAt merged.
Proof.
  intros Hp Hn. exists (mergeNotes current imported). split.
  - unfold importNotes.
    now rewrite Hp, (Notes_of_json_no_null _ _ Hn), Hn.
  - apply mergeNotes_spec.
Qed.

(** C8: a payload that does not parse, or that parses to something other
    than an array, leaves the store as it was: the handler returns before
    [setNotes], nothing is merged, and nothing is thrown to the caller. *)
Theorem import_malformed (st : State) (text : string) :
  JSON_parse text = Throws
  \/ (exists v, JSON_parse text = Normal v /\ Array_isArray v = false) ->
  importNotes (notes st) text = Unchanged
  /\ applyImport (importNotes (notes st) text) st = Some st.
Proof.
  intros H.
  assert (E : importNotes (notes st) text = Unchanged).
  { unfold importNotes. destruct H as [-> | (v & -> & Hv)]; [reflexivity|].
    destruct v; try reflexivity. discriminate. }
  now rewrite E.
Qed.
End ImportFacts.

(** The example of the merge: the newer [A] replaces the current one and
    comes before [B]. *)
Example merge_example :
  let a100 := {| id := "A"; title := "a"; content := "old"; updatedAt := 100 |} in
  let a200 := {| id := "A"; title := "a"; content := "new"; updatedAt := 200 |} in
  let b50 := {| id := "B"; title := "b"; content := "b"; updatedAt := 50 |} in
  mergeNotes [a100] [a200; b50] = [a200; b50].
Proof. reflexivity. Qed.

(** C1 fails on a tie: with the same id and the same [updatedAt] in the
    current collection and in the file, the import keeps the current note,
    which is the first in iteration order, and drops the imported one, which
    is the last. *)
Lemma import_tie_keeps_first :
  let kept := {| id := "A"; title := "current"; content := EmptyString;
                 updatedAt := 100 |} in
  let dropped := {| id := "A"; title := "imported"; content := EmptyString;
                    updatedAt := 100 |} in
  importNotes (codec := JsonText.codec) [kept]
    (JsonText.stringify (json_of_notes [dropped])) = Replaced [kept]
  /\ last_latest ([kept] ++ [dropped]) dropped
  /\ ~ In dropped [kept]
  /\ ~ last_latest ([kept] ++ [dropped]) kept.
Proof.
  intros kept dropped. repeat apply conj.
  - vm_compute. reflexivity.
  - exists [kept], []. repeat split.
    + intros x [<- | []] _. simpl. lia.
    + intros x [].
  - intros [H | []]. discriminate.
  - intros (l1 & l2 & E & _ & H2).
    destruct l1 as [|y l1].
    + injection E as <-. specialize (H2 dropped (or_introl eq_refl) eq_refl).
      simpl in H2. lia.
    + injection E as _ E. destruct l1 as [|z l1]; [discriminate E|].
      injection E as _ E. destruct l1; discriminate E.
Qed.

(** ** The note store *)

Lemma selectedNote_Some (st : State) (sel : Note) :
  selectedNote st = Some sel ->
  In sel (notes st) /\ selectedId st = Some (id sel).
Proof.
  unfold selectedNote. intros H. apply find_some in H.
  destruct H as [Hin Hsel]. split; [assumption|].
  unfold is_selected in Hsel. destruct (selectedId st) as [s|]; [|discriminate].
  apply String.eqb_eq in Hsel. now subst.
Qed.

Lemma selectedNote_None (st : State) :
  selectedNote st = None <->
  selectedId st = None
  \/ exists s, selectedId st = Some s /\ ~ In s (map id (notes st)).
Proof.
  unfold selectedNote. split.
  - intros H. destruct (selectedId st) as [s|] eqn:Es; [|now left].
    right. exists s. split; [reflexivity|]. intros Hin.
    apply in_map_iff in Hin. destruct Hin as (n & Hn & Hin).
    apply (find_none _ _ H) in Hin. simpl in Hin.
    rewrite Hn, String.eqb_refl in Hin. discriminate.
  - intros [-> | (s & -> & Hs)].
    + simpl. induction (notes st); simpl; auto.
    + induction (notes st) as [|n l IH]; simpl; [reflexivity|].
      destruct (String.eqb (id n) s) eqn:E.
      * apply String.eqb_eq in E. exfalso. apply Hs. now left.
      * apply IH. intros H. apply Hs. now right.
Qed.





Lemma patch_selected_absent (sel : string) (partial : Partial)
    (clock : nat -> Z) (l : list Note) (k : nat) :
  ~ In sel (map id l) -> patch_selected sel partial clock k l = l.
Proof.
  induction l as [|x l IH]; simpl; intros H; [reflexivity|].
  destruct (String.eqb (id x) sel) eqn:E.
  - apply String.eqb_eq in E. tauto.
  - rewrite IH; tauto.
Qed.

Lemma filter_others_absent (sel : string) (l : list Note) :
  ~ In sel (map id l) -> filter (other_than sel) l = l.
Proof.
  induction l as [|x l IH]; simpl; intros H; [reflexivity|].
  unfold other_than at 1. destruct (String.eqb (id x) sel) eqn:E.
  - apply String.eqb_eq in E. tauto.
  - simpl. rewrite IH; tauto.
Qed.

(** With distinct ids one note carries the selected id: it alone is
    patched, with the first reading of the clock. *)
Lemma patch_selected_unique (partial : Partial) (clock : nat -> Z)
    (l : list Note) (k : nat) (o : Note) :
  NoDup (map id l) -> In o l ->
  Permutation (patch_selected (id o) partial clock k l)
    (patch partial (clock k) o :: filter (other_than (id o)) l).
Proof.
  induction l as [|x l IH]; simpl; intros Hnd Hin; [destruct Hin|].
  inversion Hnd as [|? ? Hx Hnd']; subst.
  unfold other_than at 1.
  destruct (String.eqb (id x) (id o)) eqn:E; simpl.
  - apply String.eqb_eq in E.
    assert (x = o).
    { destruct Hin as [? | Hin]; [assumption|].
      exfalso. apply Hx. rewrite E. now apply in_map. }
    subst x.
    rewrite patch_selected_absent, filter_others_absent by assumption.
    apply Permutation_refl.
  - apply String.eqb_neq in E.
    destruct Hin as [-> | Hin]; [congruence|].
    eapply perm_trans; [apply perm_skip, IH; assumption | apply perm_swap].
Qed.


(** ** Reaching a state *)

Section ReachFacts.
Context {codec : JSON}.

Lemma reach_initial : reachable initial.
Proof. exists []. apply reach_with_initial. Qed.

Lemma reach_loaded (w : Browser) (clock : nat -> Z) (ns : list Note) :
  Notes_of_Loaded (loadNotesFromStorage w clock) = Some ns ->
  reachable (setNotes ns initial).
Proof. intros H. exists []. now apply (reach_with_loaded w clock). Qed.

Lemma reach_autoSelect (st : State) :
  reachable st -> reachable (autoSelect st).
Proof. intros [rs H]. exists rs. now apply reach_with_autoSelect. Qed.

Lemma reach_create (clock : nat -> Z) (rnd : string) (st : State) :
  reachable st -> reachable (createNote clock rnd st).
Proof. intros [rs H]. exists rs. now apply reach_with_create. Qed.

Lemma reach_delete (n : Note) (st : State) :
  reachable st -> In n (filteredNotes st) ->
  reachable (deleteNote (id n) st).
Proof. intros [rs H] Hn. exists rs. now apply reach_with_delete. Qed.

Lemma reach_select (n : Note) (st : State) :
  reachable st -> In n (filteredNotes st) ->
  reachable (setSelectedId (Some (id n)) st).
Proof. intros [rs H] Hn. exists rs. now apply reach_with_select. Qed.

Lemma reach_update (partial : Partial) (clock : nat -> Z) (st : State) :
  reachable st -> reachable (updateSelected partial clock st).
Proof. intros [rs H]. exists rs. now apply reach_with_update. Qed.

Lemma reach_query (q : string) (st : State) :
  reachable st -> reachable (setQuery q st).
Proof. intros [rs H]. exists rs. now apply reach_with_query. Qed.

(** A read that completes before anything else happens merges the file
    into the current collection. *)
Lemma reach_import (text : string) (st st' : State) :
  reachable st ->
  applyImport (importNotes (notes st) text) st = Some st' ->
  reachable st'.
Proof.
  intros [rs H] Himp. exists (rs ++ []).
  apply (reach_with_onload (notes st) text st rs [] st'); [|exact Himp].
  now apply reach_with_pick.
Qed.

(** A read that completes after other handlers have run merges the file
    into the collection of the pick and overwrites what came after. *)
Lemma reach_import_late (text : string) (st later st' : State)
    (rs : list Reading) :
  reachable_with later (rs ++ [(notes st, text)]) ->
  applyImport (importNotes (notes st) text) later = Some st' ->
  reachable st'.
Proof.
  intros H Himp. exists (rs ++ []).
  now apply (reach_with_onload (notes st) text later rs [] st').
Qed.
End ReachFacts.

(** ** Identifier generation *)

Lemma digit_value_digit36 (d : Z) :
  0 <= d < 36 -> digit_value (digit36 d) = d.
Proof.
  intros Hd. unfold digit_value, digit36, code.
  destruct (d <? 10) eqn:E.
  - apply Z.ltb_lt in E. rewrite nat_ascii_embedding by lia.
    assert (H : (Z.of_nat (48 + Z.to_nat d) <? 58) = true)
      by (apply Z.ltb_lt; lia).
    rewrite H. lia.
  - apply Z.ltb_ge in E. rewrite nat_ascii_embedding by lia.
    assert (H : (Z.of_nat (87 + Z.to_nat d) <? 58) = false)
      by (apply Z.ltb_ge; lia).
    rewrite H. lia.
Qed.

(** The fuel is enough: the digits written are those of [n]. *)
Lemma value36_digits36 (fuel : nat) (n : Z) (acc : string) :
  0 <= n < 36 ^ Z.of_nat fuel ->
  value36 0 (digits36 fuel n acc) = value36 n acc.
Proof.
  revert n acc. induction fuel as [|fuel IH]; intros n acc Hn.
  - simpl in Hn. assert (n = 0) by lia. now subst.
  - cbn [digits36]. destruct (n <? 36) eqn:E.
    + apply Z.ltb_lt in E. cbn [value36].
      rewrite Z.mod_small, digit_value_digit36 by lia.
      now rewrite Z.mul_0_r.
    + apply Z.ltb_ge in E.
      rewrite Nat2Z.inj_succ, Z.pow_succ_r in Hn by lia.
      rewrite IH.
      * cbn [value36].
        rewrite digit_value_digit36 by (apply Z.mod_pos_bound; lia).
        f_equal. pose proof (Z.div_mod n 36). lia.
      * split; [apply Z.div_pos; lia|].
        apply Z.div_lt_upper_bound; lia.
Qed.

Lemma toString36_value (n : Z) : 0 <= n -> value36 0 (toString36 n) = n.
Proof.
  intros Hn. unfold toString36.
  assert (E : (n <? 0) = false) by (apply Z.ltb_ge; lia). rewrite E.
  apply value36_digits36. split; [assumption|].
  rewrite Nat2Z.inj_succ, Z2Nat.id by apply Z.log2_nonneg.
  destruct (Z.eq_dec n 0) as [-> | Hne]; [reflexivity|].
  apply Z.lt_le_trans with (2 ^ Z.succ (Z.log2 n)).
  - apply Z.log2_spec. lia.
  - apply Z.pow_le_mono_l. split; [lia | lia].
Qed.

Lemma digits36_nonempty (fuel : nat) (n : Z) (acc : string) :
  acc <> EmptyString -> digits36 fuel n acc <> EmptyString.
Proof.
  revert n acc. induction fuel as [|fuel IH]; intros n acc Hacc; simpl;
    [assumption|].
  destruct (n <? 36); [discriminate|]. apply IH. discriminate.
Qed.

Lemma toString36_nonempty (n : Z) : toString36 n <> EmptyString.
Proof.
  unfold toString36. destruct (n <? 0); [discriminate|].
  simpl. destruct (n <? 36); [discriminate|].
  apply digits36_nonempty. discriminate.
Qed.

Lemma generateId_nonempty (now : Z) (rnd : string) :
  generateId now rnd <> EmptyString.
Proof.
  unfold generateId. pose proof (toString36_nonempty now) as H.
  destruct (toString36 now); [contradiction|]. discriminate.
Qed.

(** C5, as the handler has it: [createNote] puts in front of the collection
    a note titled ["Untitled"], with empty content, [updatedAt] the reading
    of the clock, and the generated identifier, which is not empty, as its
    id; that note is the selected note, and the auto-select effect leaves
    the selection where it is.  Nothing in the handler looks at the ids of
    the collection: the id is one no note had before, and distinct ids stay
    distinct, provided the generated identifier is carried by no note of
    the collection. *)
Theorem createNote_spec (clock : nat -> Z) (rnd : string) (st : State) :
  let st' := createNote clock rnd st in
  exists n,
    notes st' = n :: notes st
    /\ id n = generateId (clock 0%nat) rnd
    /\ id n <> EmptyString
    /\ title n = "Untitled"
    /\ content n = EmptyString
    /\ updatedAt n = clock 1%nat
    /\ selectedId st' = Some (id n)
    /\ selectedNote st' = Some n
    /\ autoSelect st' = st'
    /\ (~ In (generateId (clock 0%nat) rnd) (map id (notes st)) ->
        ~ In (id n) (map id (notes st))
        /\ (NoDup (map id (notes st)) -> NoDup (map id (notes st')))).
Proof.
  intros st'. subst st'. unfold createNote.
  eexists. repeat apply conj; try reflexivity.
  - apply generateId_nonempty.
  - unfold selectedNote. simpl. now rewrite String.eqb_refl.
  - unfold autoSelect. cbn [selectedId setSelectedId setNotes notes id].
    pose proof (generateId_nonempty (clock 0%nat) rnd) as H.
    destruct (generateId (clock 0%nat) rnd); [contradiction | reflexivity].
  - intros Hfresh. split; [exact Hfresh|].
    intros Hnd. cbn [notes setSelectedId setNotes map id].
    now constructor.
Qed.

(** What [createNote] does whether the identifier is new or not. *)
Lemma createNote_always (clock : nat -> Z) (rnd : string) (st : State) :
  let n := {| id := generateId (clock 0%nat) rnd; title := "Untitled";
              content := EmptyString; updatedAt := clock 1%nat |} in
  createNote clock rnd st
  = {| notes := n :: notes st; selectedId := Some (id n); query := query st |}.
Proof. reflexivity. Qed.

(** C5 fails when the identifier collides: two notes created in the same
    millisecond with the same random draw get the same id, so the second
    [createNote] yields an id that a note of the collection has. *)
Lemma createNote_collision :
  let clock := fun _ : nat => 1700000000000 in
  let rnd := "0.4fzyo82mvyr" in
  let st := createNote clock rnd initial in
  reachable (codec := JsonText.codec) st
  /\ map id (notes st) = ["LOYW3V284FZYO8"]
  /\ selectedId (createNote clock rnd st) = Some "LOYW3V284FZYO8"
  /\ In "LOYW3V284FZYO8" (map id (notes st))
  /\ ~ NoDup (map id (notes (createNote clock rnd st))).
Proof.
  intros clock rnd st. repeat apply conj.
  - apply reach_create. apply reach_initial.
  - vm_compute. reflexivity.
  - vm_compute. reflexivity.
  - left. vm_compute. reflexivity.
  - intros H. inversion H as [|? ? Hnot _]; subst. apply Hnot. now left.
Qed.

(** ** Ordering *)

Lemma sorted_desc_filter {A : Type} (key : A -> Z) (f : A -> bool)
    (l : list A) :
  sorted_desc key l -> sorted_desc key (filter f l).
Proof.
  unfold sorted_desc. induction 1 as [|x xs Hs IH Hall]; simpl;
    [constructor|].
  destruct (f x); [|assumption].
  constructor; [assumption|].
  apply Forall_forall. intros y Hy. apply filter_In in Hy.
  rewrite Forall_forall in Hall. now apply Hall.
Qed.

Lemma sorted_desc_cons {A : Type} (key : A -> Z) (x : A) (l : list A) :
  sorted_desc key l ->
  (sorted_desc key (x :: l) <-> forall y, In y l -> key y <= key x).
Proof.
  unfold sorted_desc. intros Hs. split.
  - intros H. inversion H as [|? ? _ Hall]; subst.
    now rewrite Forall_forall in Hall.
  - intros H. constructor; [assumption | now apply Forall_forall].
Qed.

Section OrderFacts.
Context {codec : JSON}.

(** C2, as the handlers have it: an update that has a selected note and a
    merge import leave the collection in descending order of [updatedAt]
    whatever it was before, since both sort it; a delete keeps a
    collection that is in order in order; and [createNote], which puts
    the new note in front without sorting, keeps a collection that is in
    order in order exactly when no note of it has an [updatedAt] later
    than the reading of the clock. *)
Theorem mutations_keep_order (st : State) :
  (forall partial clock sel,
      selectedNote st = Some sel ->
      sorted_desc updatedAt (notes (updateSelected partial clock st)))
  /\ (forall text merged,
        importNotes (notes st) text = Replaced merged ->
        sorted_desc updatedAt merged)
  /\ (forall i,
        sorted_desc updatedAt (notes st) ->
        sorted_desc updatedAt (notes (deleteNote i st)))
  /\ (forall clock rnd,
        sorted_desc updatedAt (notes st) ->
        (sorted_desc updatedAt (notes (createNote clock rnd st))
         <-> forall n, In n (notes st) -> updatedAt n <= clock 1%nat)).
Proof.
  repeat apply conj.
  - intros partial clock sel Hsel. unfold updateSelected. rewrite Hsel.
    apply Array_sort_sorted.
  - intros text merged H. unfold importNotes in H.
    destruct (JSON_parse text) as [[| | | |elems|]|]; try discriminate.
    destruct (existsb is_null elems); [discriminate|].
    destruct (Notes_of_json elems); [|discriminate].
    injection H as <-. apply Array_sort_sorted.
  - intros i Hs. unfold deleteNote.
    destruct (selected_is (selectedId st) i); simpl;
      now apply sorted_desc_filter.
  - intros clock rnd Hs. rewrite createNote_always. cbn [notes].
    now apply (sorted_desc_cons updatedAt).
Qed.
End OrderFacts.

(** C2 fails for [createNote]: after the import of a note dated later than
    the clock, the collection is in order, and the note created next stands
    in front of a newer one. *)
Lemma createNote_breaks_order :
  let later := {| id := "A"; title := "from a backup"; content := EmptyString;
                  updatedAt := 1800000000000 |} in
  let clock := fun _ : nat => 1700000000000 in
  let st := setNotes [later] initial in
  applyImport
    (importNotes (codec := JsonText.codec) (notes initial)
       (JsonText.stringify (json_of_notes [later]))) initial = Some st
  /\ reachable (codec := JsonText.codec) st
  /\ sorted_desc updatedAt (notes st)
  /\ map updatedAt (notes (createNote clock "0.4fzyo82mvyr" st))
     = [1700000000000; 1800000000000]
  /\ ~ sorted_desc updatedAt (notes (createNote clock "0.4fzyo82mvyr" st)).
Proof.
  intros later clock st.
  assert (Himp : applyImport
            (importNotes (codec := JsonText.codec) (notes initial)
               (JsonText.stringify (json_of_notes [later]))) initial = Some st)
    by (vm_compute; reflexivity).
  repeat apply conj.
  - exact Himp.
  - eapply reach_import; [apply reach_initial | exact Himp].
  - repeat constructor.
  - reflexivity.
  - intros H. inversion H as [|? ? _ Hall]; subst.
    inversion Hall as [|? ? Hle _]; subst. cbv in Hle. now apply Hle.
Qed.

(** ** Search *)

Section StringFacts.
Local Open Scope string_scope.

Lemma append_empty_r (s : string) : s ++ EmptyString = s.
Proof. induction s as [|c s IH]; simpl; [reflexivity | now rewrite IH]. Qed.

Lemma append_assoc (a b c : string) : (a ++ b) ++ c = a ++ b ++ c.
Proof. induction a as [|x a IH]; simpl; [reflexivity | now rewrite IH]. Qed.

Lemma prefix_spec (q s : string) :
  String.prefix q s = true <-> exists post, s = q ++ post.
Proof.
  revert s. induction q as [|c q IH]; intros s.
  - split; [intros _; now exists s | intros _; now destruct s].
  - destruct s as [|d s]; simpl.
    + split; [discriminate | intros (post & H); discriminate].
    + destruct (Ascii.ascii_dec c d) as [-> | Hne].
      * rewrite IH. split; intros (post & H); exists post.
        -- now rewrite H.
        -- now injection H.
      * split; [discriminate|]. intros (post & H). injection H as H _.
        congruence.
Qed.

Lemma includes_spec (s q : string) :
  includes s q = true <-> exists pre post, s = pre ++ q ++ post.
Proof.
  induction s as [|c s IH].
  - change (includes EmptyString q)
      with (String.prefix q EmptyString || false)%bool.
    rewrite orb_false_r, prefix_spec. split.
    + intros (post & H). now exists EmptyString, post.
    + intros (pre & post & H). destruct pre; [now exists post | discriminate].
  - change (includes (String c s) q)
      with (String.prefix q (String c s) || includes s q)%bool.
    rewrite orb_true_iff, prefix_spec, IH. split.
    + intros [(post & H) | (pre & post & H)].
      * now exists EmptyString, post.
      * exists (String c pre), post. simpl. now rewrite H.
    + intros (pre & post & H). destruct pre as [|d pre].
      * left. now exists post.
      * right. injection H as _ H. now exists pre, post.
Qed.

Lemma map_string_app (f : ascii -> ascii) (a b : string) :
  map_string f (a ++ b) = map_string f a ++ map_string f b.
Proof. induction a as [|c a IH]; simpl; [reflexivity | now rewrite IH]. Qed.

Lemma map_string_split (f : ascii -> ascii) (s a b : string) :
  map_string f s = a ++ b ->
  exists s1 s2, s = s1 ++ s2 /\ map_string f s1 = a /\ map_string f s2 = b.
Proof.
  revert s. induction a as [|c a IH]; intros s H; simpl in H.
  - now exists EmptyString, s.
  - destruct s as [|d s]; [discriminate|]. simpl in H.
    injection H as Hc H. destruct (IH s H) as (s1 & s2 & -> & H1 & H2).
    exists (String d s1), s2. simpl. now rewrite Hc, H1.
Qed.

(** The test of [filteredNotes] on one field is containment up to case. *)
Lemma includes_contains_ci (s q : string) :
  includes (toLowerCase s) (toLowerCase q) = true <-> contains_ci s q.
Proof.
  rewrite includes_spec. unfold contains_ci, toLowerCase. split.
  - intros (pre & post & H).
    destruct (map_string_split _ _ _ _ H) as (s1 & s' & -> & H1 & H').
    destruct (map_string_split _ _ _ _ H') as (u & s3 & -> & H2 & H3).
    now exists s1, u, s3.
  - intros (pre & u & post & -> & Hu).
    exists (map_string lower_char pre), (map_string lower_char post).
    now rewrite !map_string_app, Hu.
Qed.

Lemma lower_char_idem (c : ascii) : lower_char (lower_char c) = lower_char c.
Proof.
  destruct c as [[] [] [] [] [] [] [] []]; vm_compute; reflexivity.
Qed.

Lemma toLowerCase_idem (s : string) :
  toLowerCase (toLowerCase s) = toLowerCase s.
Proof.
  unfold toLowerCase. induction s as [|c s IH]; simpl; [reflexivity|].
  now rewrite lower_char_idem, IH.
Qed.

Lemma falsy_toLowerCase (s : string) : falsy (toLowerCase s) = falsy s.
Proof. now destruct s. Qed.

Lemma falsy_empty (s : string) : falsy s = true <-> s = EmptyString.
Proof. destruct s; simpl; split; congruence. Qed.

Lemma trimStart_whitespace (s : string) :
  all_whitespace s = true -> trimStart s = EmptyString.
Proof.
  induction s as [|c s IH]; simpl; [reflexivity|].
  intros H. apply andb_true_iff in H. destruct H as [-> H]. now apply IH.
Qed.

Lemma trimEnd_whitespace (s : string) :
  all_whitespace s = true -> trimEnd s = EmptyString.
Proof.
  induction s as [|c s IH]; simpl; [reflexivity|].
  intros H. apply andb_true_iff in H. destruct H as [-> H].
  now rewrite IH.
Qed.

Lemma trimStart_app (q post : string) :
  trimStart (q ++ post)
  = if all_whitespace q then trimStart post else trimStart q ++ post.
Proof.
  induction q as [|c q IH]; simpl; [reflexivity|].
  destruct (isWhiteSpace c); simpl; [exact IH | reflexivity].
Qed.

Lemma trimEnd_app (s post : string) :
  all_whitespace post = true -> trimEnd (s ++ post) = trimEnd s.
Proof.
  intros H. induction s as [|c s IH]; simpl.
  - now apply trimEnd_whitespace.
  - now rewrite IH.
Qed.

(** Whitespace around a query does not survive the trim. *)
Lemma trim_padded (pre q post : string) :
  all_whitespace pre = true -> all_whitespace post = true ->
  trim (pre ++ q ++ post) = trim q.
Proof.
  intros Hpre Hpost. unfold trim.
  rewrite trimStart_app, Hpre, trimStart_app.
  destruct (all_whitespace q) eqn:Hq.
  - rewrite (trimStart_whitespace post Hpost), (trimStart_whitespace q Hq).
    reflexivity.
  - now apply trimEnd_app.
Qed.

Lemma trim_whitespace (q : string) :
  all_whitespace q = true -> trim q = EmptyString.
Proof.
  intros H. unfold trim. now rewrite (trimStart_whitespace q H).
Qed.

Lemma trimEnd_cons (c : ascii) (s : string) :
  trimEnd (String c s)
  = match trimEnd s with
    | EmptyString =>
        if isWhiteSpace c then EmptyString else String c EmptyString
    | r => String c r
    end.
Proof. reflexivity. Qed.

Lemma trimEnd_idem (s : string) : trimEnd (trimEnd s) = trimEnd s.
Proof.
  induction s as [|c s IH]; [reflexivity|].
  rewrite trimEnd_cons.
  destruct (trimEnd s) as [|d r] eqn:E.
  - destruct (isWhiteSpace c) eqn:Ec; [reflexivity|].
    rewrite trimEnd_cons. simpl. now rewrite Ec.
  - rewrite trimEnd_cons, IH. reflexivity.
Qed.

Lemma trimStart_head (s : string) :
  match trimStart s with
  | EmptyString => True
  | String c _ => isWhiteSpace c = false
  end.
Proof.
  induction s as [|c s IH]; simpl; [exact I|].
  destruct (isWhiteSpace c) eqn:E; [exact IH | exact E].
Qed.

Lemma trimStart_trimEnd (s : string) :
  match s with
  | EmptyString => True
  | String c _ => isWhiteSpace c = false
  end ->
  trimStart (trimEnd s) = trimEnd s.
Proof.
  destruct s as [|c s]; simpl; [reflexivity|]. intros Hc.
  destruct (trimEnd s); rewrite ?Hc; simpl; rewrite ?Hc; reflexivity.
Qed.

Lemma trim_idem (s : string) : trim (trim s) = trim s.
Proof.
  unfold trim. rewrite trimStart_trimEnd by apply trimStart_head.
  apply trimEnd_idem.
Qed.
End StringFacts.

Lemma matches_contains_ci (q : string) (n : Note) :
  matches (toLowerCase q) n = true
  <-> contains_ci (title n) q \/ contains_ci (content n) q.
Proof.
  unfold matches. now rewrite orb_true_iff, !includes_contains_ci.
Qed.

(** C7, as the page has it: the query is trimmed first.  When the trimmed
    query is empty the search gives the whole collection as it stands.
    Otherwise it gives the collection filtered, in the order it stands in,
    by a test that holds of a note exactly when its title or its content
    contains the trimmed query up to case; with no such note the result is
    empty.  The search reads the state and returns a list: no part of the
    state changes. *)
Theorem filteredNotes_spec (st : State) :
  let q := trim (query st) in
  (q = EmptyString -> filteredNotes st = notes st)
  /\ (q <> EmptyString ->
      (exists keep,
          filteredNotes st = filter keep (notes st)
          /\ forall n, keep n = true
                       <-> contains_ci (title n) q \/ contains_ci (content n) q)
      /\ (forall n, In n (filteredNotes st)
                    <-> In n (notes st)
                        /\ (contains_ci (title n) q \/ contains_ci (content n) q))
      /\ ((forall n, In n (notes st) ->
                     ~ contains_ci (title n) q /\ ~ contains_ci (content n) q) ->
          filteredNotes st = [])).
Proof.
  intros q. subst q. unfold filteredNotes. rewrite falsy_toLowerCase. split.
  - intros ->. reflexivity.
  - intros Hq.
    destruct (falsy (trim (query st))) eqn:Hf;
      [apply falsy_empty in Hf; contradiction|].
    repeat apply conj.
    + exists (matches (toLowerCase (trim (query st)))).
      split; [reflexivity | intros n; apply matches_contains_ci].
    + intros n. rewrite filter_In. now rewrite matches_contains_ci.
    + intros Hnone. induction (notes st) as [|n l IH]; simpl; [reflexivity|].
      destruct (matches (toLowerCase (trim (query st))) n) eqn:E.
      * apply matches_contains_ci in E.
        destruct (Hnone n (or_introl eq_refl)) as [H1 H2]. tauto.
      * apply IH. intros m Hm. apply Hnone. now right.
Qed.

(** C7 fails on a query with whitespace around it: the query is not empty,
    neither the title nor the content of the note contains it, and the
    search returns the note, because it looks for the trimmed query. *)
Lemma search_padded_query :
  let n := {| id := "1"; title := "note"; content := "text";
              updatedAt := 0 |} in
  let st := {| notes := [n]; selectedId := None; query := " note " |} in
  query st <> EmptyString
  /\ ~ contains_ci (title n) (query st)
  /\ ~ contains_ci (content n) (query st)
  /\ filteredNotes st = [n].
Proof.
  intros n st. repeat apply conj.
  - discriminate.
  - rewrite <- includes_contains_ci. vm_compute. discriminate.
  - rewrite <- includes_contains_ci. vm_compute. discriminate.
  - vm_compute. reflexivity.
Qed.

(** C10: the search trims the query.  A query of whitespace only gives the
    whole collection; whitespace put before and after a query does not
    change what the search gives; and the search gives for a query what it
    gives for the trimmed query. *)
Theorem search_trims (st : State) :
  (all_whitespace (query st) = true -> filteredNotes st = notes st)
  /\ (forall pre q post,
        all_whitespace pre = true -> all_whitespace post = true ->
        filteredNotes (setQuery (pre ++ q ++ post)%string st)
        = filteredNotes (setQuery q st))
  /\ filteredNotes st = filteredNotes (setQuery (trim (query st)) st).
Proof.
  repeat apply conj.
  - intros H. unfold filteredNotes. now rewrite (trim_whitespace _ H).
  - intros pre q post Hpre Hpost. unfold filteredNotes.
    cbn [query notes setQuery]. now rewrite trim_padded.
  - unfold filteredNotes. cbn [query notes setQuery]. now rewrite trim_idem.
Qed.

(** ** Debounced persistence *)

Section WrittenFacts.
Context {codec : JSON}.

(** An admitted save leaves the printed collection under the notes key. *)
Lemma save_admitted_read (ls : Storage) (ns : list Note) :
  admits ls STORAGE_KEY (JSON_stringify (json_of_notes ns)) = true ->
  read (saveNotesToStorage (Some ls) ns) STORAGE_KEY
  = Some (JSON_stringify (json_of_notes ns)).
Proof.
  intros H. unfold saveNotesToStorage, setItem. rewrite H.
  cbn [try_catch read getItem]. now rewrite String.eqb_refl.
Qed.

(** A save leaves every other key as it was. *)
Lemma save_other_keys (w : Browser) (ns : list Note) (k : string) :
  k <> STORAGE_KEY -> read (saveNotesToStorage w ns) k = read w k.
Proof.
  intros Hk. destruct w as [ls|]; [|reflexivity].
  unfold saveNotesToStorage, setItem.
  destruct (admits ls STORAGE_KEY (JSON_stringify (json_of_notes ns)));
    cbn [try_catch read getItem]; [|reflexivity].
  apply String.eqb_neq in Hk. now rewrite Hk.
Qed.
End WrittenFacts.

Lemma last_cons {A : Type} (l : list A) (a d : A) :
  last (a :: l) d = last l a.
Proof.
  revert a d. induction l as [|y l IH]; intros a d; [reflexivity|].
  change (last (a :: y :: l) d) with (last (y :: l) d).
  now rewrite (IH y d), (IH y a).
Qed.

Section DebounceFacts.
Context {codec : JSON}.

Lemma rerender_armed (ns : list Note) (p : Page) :
  page_inv p ->
  armed (rerender ns p) ns (time p + DEBOUNCE)
  /\ time (rerender ns p) = time p
  /\ saved (rerender ns p) = saved p
  /\ browser (rerender ns p) = browser p.
Proof.
  intros [Hnext Hp]. unfold rerender, effect_body, effect_cleanup.
  assert (Hclear : pending (clear_current (clear_current p)) = []
                   /\ time (clear_current (clear_current p)) = time p
                   /\ next_handle (clear_current (clear_current p))
                      = next_handle p
                   /\ saved (clear_current (clear_current p)) = saved p
                   /\ browser (clear_current (clear_current p)) = browser p).
  { destruct Hp as [Hp | (ns' & d & h & Hp & Hs & Hh & _)].
    - unfold clear_current. destruct (saveTimer p) as [[|h]|] eqn:E;
        cbn [saveTimer clearTimeout]; rewrite ?E;
        cbn [pending clearTimeout time next_handle saved browser];
        rewrite ?Hp; auto.
    - unfold clear_current. rewrite Hs.
      destruct h as [|h]; [contradiction|].
      cbn [saveTimer clearTimeout]. rewrite Hs.
      cbn [pending clearTimeout time next_handle saved browser].
      rewrite Hp. simpl. rewrite Nat.eqb_refl. simpl. auto. }
  destruct Hclear as (Hc & Ht & Hn & Hsv & Hb).
  unfold schedule_save, armed. cbn [pending saveTimer next_handle time saved browser].
  rewrite Hc, Ht, Hn, Hsv, Hb. repeat split.
  exists (next_handle p). repeat split; auto. unfold DEBOUNCE. lia.
Qed.

Lemma armed_inv (p : Page) (ns : list Note) (d : Z) :
  armed p ns d -> page_inv p.
Proof.
  intros H. split.
  - now destruct H as (h & _ & _ & _ & Hn & _).
  - right. now exists ns, d.
Qed.

(** Before the timeout is due, time passes and nothing else happens. *)
Lemma advance_waits (dt : Z) (p : Page) (ns : list Note) (d : Z) :
  armed p ns d -> time p + dt < d ->
  armed (advance dt p) ns d
  /\ time (advance dt p) = time p + dt
  /\ saved (advance dt p) = saved p
  /\ browser (advance dt p) = browser p.
Proof.
  intros (h & Hp & Hs & Hh & Hn & Ht) Hdt. unfold advance. rewrite Hp.
  cbn [filter due]. assert (E : (d <=? time p + dt) = false)
    by (apply Z.leb_gt; lia).
  rewrite E. cbn [negb Array_sort fold_left].
  repeat split. exists h. cbn [pending saveTimer next_handle time].
  repeat split; auto.
Qed.

(** Once the timeout is due it runs, at its due time, and none is left. *)
Lemma advance_fires (dt : Z) (p : Page) (ns : list Note) (d : Z) :
  armed p ns d -> d <= time p + dt ->
  pending (advance dt p) = []
  /\ saved (advance dt p) = saved p ++ [(d, ns)]
  /\ browser (advance dt p) = saveNotesToStorage (browser p) ns
  /\ next_handle (advance dt p) = next_handle p.
Proof.
  intros (h & Hp & Hs & Hh & Hn & Ht) Hdt. unfold advance. rewrite Hp.
  cbn [filter due]. assert (E : (d <=? time p + dt) = true)
    by (apply Z.leb_le; lia).
  rewrite E. cbn [negb Array_sort sort_insert fold_left fire].
  repeat split.
Qed.

Lemma advance_idle (dt : Z) (p : Page) :
  pending p = [] ->
  pending (advance dt p) = [] /\ saved (advance dt p) = saved p
  /\ next_handle (advance dt p) = next_handle p.
Proof.
  intros Hp. unfold advance. rewrite Hp. repeat split.
Qed.

Lemma page_reachable_inv (p : Page) : page_reachable p -> page_inv p.
Proof.
  induction 1 as [t0 w | ns p Hp IH | dt p Hdt Hp IH].
  - apply (armed_inv _ [] (t0 + DEBOUNCE)).
    exists 1%nat. unfold mount, effect_body, clear_current, schedule_save.
    cbn. repeat split; auto. unfold DEBOUNCE. lia.
  - eapply armed_inv. now apply rerender_armed.
  - destruct IH as [Hn [Hidle | (ns & d & Harm)]].
    + destruct (advance_idle dt p Hidle) as (H1 & _ & H3).
      split; [now rewrite H3 | now left].
    + destruct (Z_lt_le_dec (time p + dt) d) as [Hlt | Hle].
      * eapply armed_inv. now apply (advance_waits dt p ns d).
      * destruct (advance_fires dt p ns d Harm Hle) as (H1 & _ & _ & H4).
        split; [now rewrite H4 | now left].
Qed.

(** A burst keeps one timeout pending, for the collection of the latest
    mutation, and writes nothing. *)
Lemma burst_armed (ms : list (Z * list Note)) :
  Forall (fun m => 0 <= fst m < DEBOUNCE) ms ->
  forall (p : Page) (ns : list Note),
    armed p ns (time p + DEBOUNCE) ->
    armed (burst ms p) (last_collection ns ms)
      (time p + total_gap ms + DEBOUNCE)
    /\ time (burst ms p) = time p + total_gap ms
    /\ saved (burst ms p) = saved p
    /\ browser (burst ms p) = browser p.
Proof.
  induction 1 as [|[gap ns'] ms Hgap Hms IH]; intros p ns Harm.
  - unfold total_gap, last_collection. simpl. rewrite Z.add_0_r. auto.
  - simpl in Hgap. cbn [burst].
    destruct (advance_waits gap p ns _ Harm) as (Ha & Ht & Hs & Hb); [lia|].
    destruct (rerender_armed ns' (advance gap p) (armed_inv _ _ _ Ha))
      as (Hr & Ht' & Hs' & Hb').
    rewrite <- Ht' in Hr.
    destruct (IH (rerender ns' (advance gap p)) ns' Hr) as (H1 & H2 & H3 & H4).
    rewrite Ht', Ht in *.
    assert (El : last_collection ns ((gap, ns') :: ms) = last_collection ns' ms).
    { unfold last_collection. cbn [map snd]. apply last_cons. }
    assert (Eg : total_gap ((gap, ns') :: ms) = gap + total_gap ms)
      by reflexivity.
    rewrite El, Eg, Z.add_assoc. repeat split.
    + exact H1.
    + rewrite H2. lia.
    + congruence.
    + congruence.
Qed.

(** C9: mutations that follow one another by less than 300 milliseconds
    cause one write to the storage.  While the burst lasts and in the 300
    milliseconds after its last mutation [saveNotesToStorage] is not called
    and the storage is as it was; 300 milliseconds after the last mutation
    it is called once, with the collection of that mutation: the storage is
    what that one save makes of it, so that, the write being admitted, the
    notes key holds the printed collection of the last mutation, and every
    other key holds what it held.  On every page the component can be in,
    at most one timeout is pending: the effect clears the one the ref holds
    before it sets the next. *)
Theorem debounced_save (p : Page) :
  page_reachable p ->
  (List.length (pending p) <= 1)%nat
  /\ forall (ns0 : list Note) (ms : list (Z * list Note)) (quiet : Z),
      Forall (fun m => 0 <= fst m < DEBOUNCE) ms ->
      let settled := burst ms (rerender ns0 p) in
      let final := last_collection ns0 ms in
      (List.length (pending settled) = 1)%nat
      /\ saved settled = saved p
      /\ browser settled = browser p
      /\ (0 <= quiet < DEBOUNCE ->
          saved (advance quiet settled) = saved p
          /\ browser (advance quiet settled) = browser p)
      /\ (DEBOUNCE <= quiet ->
          saved (advance quiet settled)
          = saved p ++ [(time p + total_gap ms + DEBOUNCE, final)]
          /\ browser (advance quiet settled)
             = saveNotesToStorage (browser p) final
          /\ pending (advance quiet settled) = []
          /\ (forall ls,
                browser p = Some ls ->
                admits ls STORAGE_KEY (JSON_stringify (json_of_notes final))
                = true ->
                read (browser (advance quiet settled)) STORAGE_KEY
                = Some (JSON_stringify (json_of_notes final)))
          /\ (forall k, k <> STORAGE_KEY ->
                read (browser (advance quiet settled)) k
                = read (browser p) k)).
Proof.
  intros Hreach. pose proof (page_reachable_inv p Hreach) as Hinv. split.
  - destruct Hinv as [_ [-> | (ns & d & h & -> & _)]]; simpl; lia.
  - intros ns0 ms quiet Hms settled final.
    destruct (rerender_armed ns0 p Hinv) as (Hr & Ht & Hs & Hb).
    rewrite <- Ht in Hr.
    destruct (burst_armed ms Hms (rerender ns0 p) ns0 Hr)
      as (Harm & Htime & Hsaved & Hbrowser).
    fold settled in Harm, Htime, Hsaved, Hbrowser. fold final in Harm.
    rewrite Ht in *. rewrite Hs in Hsaved. rewrite Hb in Hbrowser.
    split; [|split; [|split; [|split]]].
    + destruct Harm as (h & -> & _). reflexivity.
    + exact Hsaved.
    + exact Hbrowser.
    + intros Hq.
      destruct (advance_waits quiet settled final _ Harm)
        as (_ & _ & H1 & H2); [lia|].
      split; congruence.
    + intros Hq.
      destruct (advance_fires quiet settled final _ Harm) as (H1 & H2 & H3 & _);
        [lia|].
      rewrite H2, H3, Hsaved, Hbrowser.
      split; [reflexivity|]. split; [reflexivity|]. split; [exact H1|]. split.
      * intros ls Hls Hadm. rewrite Hls. now apply save_admitted_read.
      * intros k Hk. now apply save_other_keys.
Qed.
End DebounceFacts.

(** After an unmount the cleanup has cleared the pending timeout: the last
    collection of a burst is not written. *)
Lemma unmount_cancels (p : Page) (ns : list Note) (d : Z) :
  armed p ns d -> pending (effect_cleanup p) = [].
Proof.
  intros (h & Hp & Hs & Hh & _). unfold effect_cleanup, clear_current.
  rewrite Hs. destruct h as [|h]; [contradiction|].
  cbn [clearTimeout pending]. rewrite Hp. simpl. now rewrite Nat.eqb_refl.
Qed.

(** * Further properties *)

(** ** Deleting and selecting *)

Lemma filter_others_In (i : string) (l : list Note) (n : Note) :
  In n (filter (other_than i) l) <-> In n l /\ id n <> i.
Proof.
  rewrite filter_In. unfold other_than. rewrite negb_true_iff.
  now rewrite String.eqb_neq.
Qed.

Lemma filter_others_ids (i : string) (l : list Note) :
  ~ In i (map id (filter (other_than i) l)).
Proof.
  intros H. apply in_map_iff in H. destruct H as (n & Hn & Hin).
  apply filter_others_In in Hin. tauto.
Qed.

Lemma NoDup_ids_filter (f : Note -> bool) (l : list Note) :
  NoDup (map id l) -> NoDup (map id (filter f l)).
Proof.
  induction l as [|n l IH]; simpl; intros H; [constructor|].
  inversion H as [|? ? Hn Hl]; subst.
  destruct (f n); simpl; [|now apply IH].
  constructor; [|now apply IH].
  intros Hin. apply Hn. apply in_map_iff in Hin.
  destruct Hin as (m & Hm & Hin). apply filter_In in Hin.
  rewrite <- Hm. apply in_map. tauto.
Qed.

Lemma deleteNote_notes (i : string) (st : State) :
  notes (deleteNote i st) = filter (other_than i) (notes st).
Proof.
  unfold deleteNote. now destruct (selected_is (selectedId st) i).
Qed.

Lemma selected_is_true (sel : option string) (i : string) :
  selected_is sel i = true <-> sel = Some i.
Proof.
  destruct sel as [s|]; simpl.
  - rewrite String.eqb_eq. split; congruence.
  - split; discriminate.
Qed.

(** X1: [deleteNote] removes every note that has the id and no other: the
    notes left are those with another id, in the order they had; an id no
    note has leaves the collection as it is.  The selection is cleared when
    it was the deleted id and kept otherwise; the query stays; distinct ids
    stay distinct. *)
Theorem deleteNote_spec (i : string) (st : State) :
  let st' := deleteNote i st in
  (forall n, In n (notes st') <-> In n (notes st) /\ id n <> i)
  /\ ~ In i (map id (notes st'))
  /\ (exists keep, notes st' = filter keep (notes st))
  /\ (~ In i (map id (notes st)) -> notes st' = notes st)
  /\ (selectedId st = Some i -> selectedId st' = None)
  /\ (selectedId st <> Some i -> selectedId st' = selectedId st)
  /\ query st' = query st
  /\ (NoDup (map id (notes st)) -> NoDup (map id (notes st'))).
Proof.
  intros st'. subst st'. rewrite deleteNote_notes. repeat apply conj.
  - intros n. apply filter_others_In.
  - apply filter_others_ids.
  - now exists (other_than i).
  - apply filter_others_absent.
  - intros H. unfold deleteNote.
    now rewrite (proj2 (selected_is_true _ _) H).
  - intros H. unfold deleteNote.
    destruct (selected_is (selectedId st) i) eqn:E; [|reflexivity].
    apply selected_is_true in E. contradiction.
  - unfold deleteNote. now destruct (selected_is (selectedId st) i).
  - apply NoDup_ids_filter.
Qed.

(** X2: the auto-select effect settles in one run: run again it changes
    nothing.  It never touches the collection or the query; it leaves a
    selection that is a non-empty string alone, and an empty collection
    too; when it does select, it selects the first note, which is then the
    selected note. *)
Theorem autoSelect_settles (st : State) :
  autoSelect (autoSelect st) = autoSelect st
  /\ notes (autoSelect st) = notes st
  /\ query (autoSelect st) = query st
  /\ (forall s, selectedId st = Some s -> s <> EmptyString ->
                autoSelect st = st)
  /\ (notes st = [] -> autoSelect st = st)
  /\ (forall n rest, notes st = n :: rest ->
        selectedId st = None \/ selectedId st = Some EmptyString ->
        selectedId (autoSelect st) = Some (id n)
        /\ selectedNote (autoSelect st) = Some n).
Proof.
  unfold autoSelect. repeat apply conj.
  - destruct (selectedId st) as [[|c s]|] eqn:Es, (notes st) as [|n l] eqn:En;
      cbn [selectedId notes setSelectedId]; rewrite ?Es, ?En; try reflexivity;
      destruct (id n); reflexivity.
  - destruct (selectedId st) as [[|c s]|], (notes st) eqn:En;
      cbn [notes setSelectedId]; congruence.
  - now destruct (selectedId st) as [[|c s]|], (notes st).
  - intros s -> Hs. destruct s; [contradiction | reflexivity].
  - intros ->. now destruct (selectedId st) as [[|c s]|].
  - intros n rest Hn Hsel. rewrite Hn.
    assert (E : match selectedId st with
                | Some EmptyString | None => setSelectedId (Some (id n)) st
                | Some (String _ _) => st
                end = setSelectedId (Some (id n)) st)
      by (destruct Hsel as [-> | ->]; reflexivity).
    rewrite E. split; [reflexivity|].
    unfold selectedNote. cbn [selectedId notes setSelectedId]. rewrite Hn.
    simpl. now rewrite String.eqb_refl.
Qed.

(** X3: deleting the selected note and letting the effect run selects the
    first of the notes that are left, and that note is the selected note;
    when none is left nothing is selected. *)
Theorem delete_selected_then_autoSelect (i : string) (st : State) :
  selectedId st = Some i ->
  let st' := autoSelect (deleteNote i st) in
  notes st' = filter (other_than i) (notes st)
  /\ selectedId st' = option_map id (hd_error (notes st'))
  /\ selectedNote st' = hd_error (notes st').
Proof.
  intros Hsel st'. subst st'.
  assert (Hd : deleteNote i st
               = setSelectedId None
                   (setNotes (filter (other_than i) (notes st)) st)).
  { unfold deleteNote. now rewrite (proj2 (selected_is_true _ _) Hsel). }
  rewrite Hd. unfold autoSelect. cbn [selectedId notes setSelectedId setNotes].
  destruct (filter (other_than i) (notes st)) as [|n l] eqn:E;
    cbn [notes selectedId setSelectedId setNotes]; repeat split;
    unfold selectedNote; cbn [notes selectedId setSelectedId setNotes];
    simpl; now rewrite ?String.eqb_refl.
Qed.

(** X4: a note just created is taken away again by deleting its id, and
    with it every note that had the same id: the collection is back to what
    it was exactly when the generated identifier was new to it. *)
Theorem create_then_delete (clock : nat -> Z) (rnd : string) (st : State) :
  let i := generateId (clock 0%nat) rnd in
  let st' := deleteNote i (createNote clock rnd st) in
  notes st' = filter (other_than i) (notes st)
  /\ selectedId st' = None
  /\ (notes st' = notes st <-> ~ In i (map id (notes st))).
Proof.
  intros i st'. subst st'. rewrite deleteNote_notes, createNote_always.
  cbn [notes id]. fold i.
  assert (E : other_than i {| id := i; title := "Untitled";
                               content := EmptyString;
                               updatedAt := clock 1%nat |} = false).
  { unfold other_than. cbn [id]. now rewrite String.eqb_refl. }
  cbn [filter]. rewrite E. split; [|split].
  - reflexivity.
  - unfold deleteNote. cbn [selectedId selected_is]. fold i.
    now rewrite String.eqb_refl.
  - split.
    + intros H Hin. apply (filter_others_ids i (notes st)). now rewrite H.
    + apply filter_others_absent.
Qed.


(** ** The selection *)

Lemma filteredNotes_incl (st : State) (n : Note) :
  In n (filteredNotes st) -> In n (notes st).
Proof.
  unfold filteredNotes. destruct (falsy (toLowerCase (trim (query st))));
    [trivial|]. intros H. now apply filter_In in H.
Qed.

Lemma patch_selected_ids (sel : string) (partial : Partial)
    (clock : nat -> Z) (l : list Note) (k : nat) :
  map id (patch_selected sel partial clock k l) = map id l.
Proof.
  revert k. induction l as [|n l IH]; intros k; simpl; [reflexivity|].
  destruct (String.eqb (id n) sel); simpl; now rewrite IH.
Qed.

Lemma updateSelected_ids (partial : Partial) (clock : nat -> Z) (st : State) :
  Permutation (map id (notes (updateSelected partial clock st)))
    (map id (notes st)).
Proof.
  unfold updateSelected. destruct (selectedNote st) as [sel|];
    [|apply Permutation_refl].
  cbn [notes setNotes].
  rewrite <- (patch_selected_ids (id sel) partial clock (notes st) 0).
  apply Permutation_map, Permutation_sym, Array_sort_perm.
Qed.

Lemma updateSelected_selectedId (partial : Partial) (clock : nat -> Z)
    (st : State) :
  selectedId (updateSelected partial clock st) = selectedId st.
Proof.
  unfold updateSelected. now destruct (selectedNote st).
Qed.

Section SelectionFacts.
Context {codec : JSON}.

Lemma importNotes_Replaced (current : list Note) (text : string)
    (merged : list Note) :
  importNotes current text = Replaced merged ->
  exists imported, merged = mergeNotes current imported.
Proof.
  unfold importNotes.
  destruct (JSON_parse text) as [[| | | |elems|]|]; try discriminate.
  destruct (existsb is_null elems); [discriminate|].
  destruct (Notes_of_json elems) as [imported|]; [|discriminate].
  intros [= <-]. now exists imported.
Qed.

Lemma selection_valid_import (current : list Note) (text : string)
    (st st' : State) :
  (forall s, selectedId st = Some s -> In s (map id current)) ->
  selection_valid st ->
  applyImport (importNotes current text) st = Some st' ->
  selection_valid st'.
Proof.
  intros Hcur Hv Himp s Hs. unfold applyImport in Himp.
  destruct (importNotes current text) as [|merged|] eqn:E;
    try discriminate; injection Himp as <-.
  - now apply Hv.
  - cbn [selectedId notes setNotes] in *.
    destruct (importNotes_Replaced _ _ _ E) as (imported & ->).
    destruct (mergeNotes_spec current imported) as (_ & Hids & _).
    apply Hids. rewrite map_app. apply in_or_app. left. now apply Hcur.
Qed.

(** X5: every handler keeps the selection on a note.  When the selected id
    is the id of a note of the collection, it still is after the
    auto-select effect, a create, a delete, the selection of a listed note,
    an update, a change of the query, and an import that merges the file
    into the current collection (the read completes before anything else
    changes the collection).  In such a state there is no selected note
    only when nothing is selected. *)
Theorem selection_kept_by_handlers (st : State) :
  selection_valid st ->
  selection_valid (autoSelect st)
  /\ (forall clock rnd, selection_valid (createNote clock rnd st))
  /\ (forall i, selection_valid (deleteNote i st))
  /\ (forall n, In n (filteredNotes st) ->
                selection_valid (setSelectedId (Some (id n)) st))
  /\ (forall partial clock, selection_valid (updateSelected partial clock st))
  /\ (forall q, selection_valid (setQuery q st))
  /\ (forall text st',
        applyImport (importNotes (notes st) text) st = Some st' ->
        selection_valid st')
  /\ (selectedNote st = None <-> selectedId st = None).
Proof.
  intros Hv. split; [|split; [|split; [|split; [|split; [|split; [|split]]]]]].
  - intros s Hs. unfold autoSelect in *.
    destruct (selectedId st) as [[|c r]|] eqn:Es,
             (notes st) as [|m l] eqn:En;
      cbn [selectedId notes setSelectedId] in *; rewrite ?Es, ?En in *;
      try (injection Hs as <-); try discriminate; try (now left).
    + specialize (Hv EmptyString Es). now rewrite En in Hv.
    + specialize (Hv (String c r) Es). now rewrite En in Hv.
    + specialize (Hv (String c r) Es). now rewrite En in Hv.
  - intros clock rnd s Hs. rewrite createNote_always in *.
    cbn [selectedId notes id map] in *. injection Hs as <-. now left.
  - intros i s Hs. unfold deleteNote in *.
    destruct (selected_is (selectedId st) i) eqn:E;
      cbn [selectedId notes setSelectedId setNotes] in *; [discriminate|].
    apply in_map_iff. specialize (Hv s Hs). apply in_map_iff in Hv.
    destruct Hv as (m & Hm & Hin). exists m. split; [assumption|].
    apply filter_In. split; [assumption|].
    apply negb_true_iff, String.eqb_neq. intros Heq.
    rewrite Hs in E. simpl in E. rewrite <- Hm, Heq, String.eqb_refl in E.
    discriminate.
  - intros n Hn s Hs. cbn [selectedId notes setSelectedId] in *.
    injection Hs as <-. apply in_map. now apply filteredNotes_incl.
  - intros partial clock s Hs. rewrite updateSelected_selectedId in Hs.
    eapply Permutation_in;
      [apply Permutation_sym, updateSelected_ids | now apply Hv].
  - intros q s Hs. cbn [selectedId notes setQuery] in *. now apply Hv.
  - intros text st' Himp.
    now apply (selection_valid_import (notes st) text st st').
  - rewrite selectedNote_None. split.
    + intros [H | (s & Hs & Habs)]; [assumption|].
      exfalso. apply Habs. now apply Hv.
    + intros H. now left.
Qed.

(** X23: a read that completes late overwrites what happened since the
    pick.  When a file is picked, a note is created, and only then the read
    completes, [onload] stores the merge of the file with the collection of
    the pick: the created note is not in the collection any more unless the
    merge holds its id, its id is still the selected id, and there is no
    selected note; the auto-select effect does not repair it.  The state is
    one the store reaches. *)
Theorem late_import_drops_created_note (st : State) (clock : nat -> Z)
    (rnd text : string) (merged : list Note) :
  importNotes (notes st) text = Replaced merged ->
  ~ In (generateId (clock 0%nat) rnd) (map id merged) ->
  let created := createNote clock rnd st in
  let st' := setNotes merged created in
  applyImport (importNotes (notes st) text) created = Some st'
  /\ notes st' = merged
  /\ selectedId st' = Some (generateId (clock 0%nat) rnd)
  /\ selectedNote st' = None
  /\ autoSelect st' = st'
  /\ (reachable st -> reachable st').
Proof.
  intros Himp Hfresh created st'. subst created st'.
  assert (Hsel : selectedId (setNotes merged (createNote clock rnd st))
                 = Some (generateId (clock 0%nat) rnd)) by reflexivity.
  split; [now rewrite Himp|]. split; [reflexivity|]. split; [exact Hsel|].
  split; [|split].
  - apply selectedNote_None. right.
    exists (generateId (clock 0%nat) rnd). now split.
  - unfold autoSelect. rewrite Hsel.
    pose proof (generateId_nonempty (clock 0%nat) rnd) as Hne.
    destruct (generateId (clock 0%nat) rnd); [contradiction|].
    now destruct (notes (setNotes merged (createNote clock rnd st))).
  - intros [rs Hr].
    apply (reach_import_late text st (createNote clock rnd st) _ rs).
    + apply reach_with_create. now apply reach_with_pick.
    + now rewrite Himp.
Qed.
End SelectionFacts.

(** ** Editing *)

Lemma find_unique_id (l : list Note) (x : Note) :
  NoDup (map id l) -> In x l ->
  find (is_selected (Some (id x))) l = Some x.
Proof.
  induction l as [|n l IH]; simpl; intros Hnd Hin; [destruct Hin|].
  inversion Hnd as [|? ? Hn Hl]; subst.
  destruct (String.eqb (id n) (id x)) eqn:E.
  - apply String.eqb_eq in E. destruct Hin as [-> | Hin]; [reflexivity|].
    exfalso. apply Hn. rewrite E. now apply in_map.
  - apply String.eqb_neq in E. destruct Hin as [-> | Hin]; [congruence|].
    now apply IH.
Qed.

(** X6: an update keeps the ids of the collection: the same ids as many
    times, so distinct ids stay distinct, and the selection stays.  With
    distinct ids, the selected note after the update is the patch of the
    note that was selected: the editor goes on showing the note being
    edited, with the new text. *)
Theorem updateSelected_keeps_selection (partial : Partial)
    (clock : nat -> Z) (st : State) :
  let st' := updateSelected partial clock st in
  Permutation (map id (notes st')) (map id (notes st))
  /\ selectedId st' = selectedId st
  /\ (NoDup (map id (notes st)) -> NoDup (map id (notes st')))
  /\ (forall sel, selectedNote st = Some sel -> NoDup (map id (notes st)) ->
        selectedNote st' = Some (patch partial (clock 0%nat) sel)).
Proof.
  intros st'. subst st'.
  pose proof (updateSelected_ids partial clock st) as Hids.
  repeat apply conj.
  - exact Hids.
  - apply updateSelected_selectedId.
  - intros Hnd. eapply Permutation_NoDup; [apply Permutation_sym, Hids|].
    exact Hnd.
  - intros sel Hsel Hnd.
    assert (Hnd' : NoDup (map id (notes (updateSelected partial clock st))))
      by (eapply Permutation_NoDup; [apply Permutation_sym, Hids | exact Hnd]).
    destruct (selectedNote_Some st sel Hsel) as [Hin Hid].
    unfold selectedNote. rewrite updateSelected_selectedId, Hid.
    change (id sel) with (id (patch partial (clock 0%nat) sel)).
    apply find_unique_id; [exact Hnd'|].
    unfold updateSelected. rewrite Hsel. cbn [notes setNotes].
    apply Array_sort_In.
    eapply Permutation_in;
      [apply Permutation_sym, patch_selected_unique; eassumption|].
    now left.
Qed.

Lemma sort_insert_head {A : Type} (key : A -> Z) (x : A) (l : list A) :
  (forall y, In y l -> key y <= key x) ->
  sort_insert (by_updatedAt_desc key) x l = x :: l.
Proof.
  destruct l as [|y l]; simpl; [reflexivity|]. intros H.
  unfold by_updatedAt_desc.
  assert (E : (key y - key x <=? 0) = true).
  { apply Z.leb_le. specialize (H y (or_introl eq_refl)). lia. }
  now rewrite E.
Qed.

(** A note newer than all the others comes out of the sort in front. *)
Lemma Array_sort_newest {A : Type} (key : A -> Z) (x : A) (l1 l2 : list A) :
  (forall y, In y (l1 ++ l2) -> key y < key x) ->
  Array_sort (by_updatedAt_desc key) (l1 ++ x :: l2)
  = x :: Array_sort (by_updatedAt_desc key) (l1 ++ l2).
Proof.
  induction l1 as [|y l1 IH]; simpl; intros H.
  - apply sort_insert_head. intros y Hy. apply Array_sort_In in Hy.
    specialize (H y Hy). lia.
  - rewrite IH by (intros z Hz; apply H; now right). simpl.
    unfold by_updatedAt_desc at 1.
    assert (E : (key x - key y <=? 0) = false).
    { apply Z.leb_gt. specialize (H y (or_introl eq_refl)). lia. }
    now rewrite E.
Qed.

Lemma patch_selected_split (partial : Partial) (clock : nat -> Z)
    (l1 l2 : list Note) (o : Note) (k : nat) :
  NoDup (map id (l1 ++ o :: l2)) ->
  patch_selected (id o) partial clock k (l1 ++ o :: l2)
  = l1 ++ patch partial (clock k) o :: l2
  /\ filter (other_than (id o)) (l1 ++ o :: l2) = l1 ++ l2.
Proof.
  induction l1 as [|n l1 IH]; simpl; intros Hnd;
    inversion Hnd as [|? ? Hn Hl]; subst.
  - unfold other_than at 1. rewrite String.eqb_refl. simpl.
    now rewrite patch_selected_absent, filter_others_absent.
  - assert (E : String.eqb (id n) (id o) = false).
    { apply String.eqb_neq. intros Heq. apply Hn. rewrite Heq, map_app.
      apply in_or_app. right. now left. }
    unfold other_than at 1. rewrite E. simpl.
    destruct (IH Hl) as [-> ->]. now split.
Qed.

(** X7: with distinct ids and a clock past the [updatedAt] of every other
    note, the note that is edited moves to the front: the collection after
    the update is its patch followed by the other notes, sorted, which is
    the order they stood in when the collection was in order. *)
Theorem updateSelected_moves_to_front (partial : Partial) (clock : nat -> Z)
    (st : State) (sel : Note) :
  selectedNote st = Some sel ->
  NoDup (map id (notes st)) ->
  (forall n, In n (notes st) -> id n <> id sel ->
             updatedAt n < clock 0%nat) ->
  let others := filter (other_than (id sel)) (notes st) in
  notes (updateSelected partial clock st)
  = patch partial (clock 0%nat) sel
      :: Array_sort (by_updatedAt_desc updatedAt) others
  /\ (sorted_desc updatedAt (notes st) ->
      notes (updateSelected partial clock st)
      = patch partial (clock 0%nat) sel :: others).
Proof.
  intros Hsel Hnd Hnew others.
  destruct (selectedNote_Some st sel Hsel) as [Hin _].
  destruct (in_split _ _ Hin) as (l1 & l2 & Hl).
  assert (Hsplit := patch_selected_split partial clock l1 l2 sel 0).
  rewrite <- Hl in Hsplit. destruct (Hsplit Hnd) as [Hp Hf].
  assert (Hmain : notes (updateSelected partial clock st)
                  = patch partial (clock 0%nat) sel
                      :: Array_sort (by_updatedAt_desc updatedAt) others).
  { unfold updateSelected. rewrite Hsel. cbn [notes setNotes].
    subst others. rewrite Hp, Hf. apply Array_sort_newest.
    intros y Hy. cbn [updatedAt patch]. apply Hnew.
    - rewrite Hl. apply in_app_or in Hy. apply in_or_app.
      destruct Hy; [now left | right; now right].
    - rewrite <- Hf in Hy. apply filter_others_In in Hy. tauto. }
  split; [exact Hmain|].
  intros Hs. rewrite Hmain. f_equal. apply Array_sort_fixed.
  now apply sorted_desc_filter.
Qed.


(** ** What a merge keeps *)

Lemma Map_get_absent (k : string) (m : NoteMap) :
  ~ In k (map fst m) -> Map_get k m = None.
Proof.
  induction m as [|[k' v] m IH]; simpl; intros H; [reflexivity|].
  destruct (String.eqb k k') eqn:E.
  - apply String.eqb_eq in E. exfalso. apply H. now left.
  - apply IH. tauto.
Qed.

Lemma Map_values_entries (l : list Note) : Map_values (map entry l) = l.
Proof.
  unfold Map_values. rewrite map_map. simpl. apply map_id.
Qed.

Lemma keys_entries (l : list Note) : map fst (map entry l) = map id l.
Proof. rewrite map_map. reflexivity. Qed.

(** Notes with distinct ids, none of them in the map yet, are appended to
    it in their order. *)
Lemma merge_fold_distinct (l : list Note) (m : NoteMap) :
  NoDup (map id l) ->
  (forall x, In x l -> ~ In (id x) (map fst m)) ->
  fold_left merge_step l m = m ++ map entry l.
Proof.
  revert m. induction l as [|x l IH]; simpl; intros m Hnd Hm.
  - now rewrite app_nil_r.
  - inversion Hnd as [|? ? Hx Hl]; subst.
    unfold merge_step at 2.
    rewrite (Map_get_absent _ _ (Hm x (or_introl eq_refl))).
    rewrite (Map_set_absent _ _ _ (Hm x (or_introl eq_refl))).
    rewrite IH.
    + now rewrite <- app_assoc.
    + exact Hl.
    + intros y Hy. rewrite map_app. intros Hin. apply in_app_or in Hin.
      destruct Hin as [Hin | [Heq | []]].
      * apply (Hm y (or_intror Hy)). exact Hin.
      * apply Hx. simpl in Heq. rewrite Heq. now apply in_map.
Qed.

Lemma Map_get_entry (l : list Note) (c : Note) :
  NoDup (map id l) -> In c l -> Map_get (id c) (map entry l) = Some c.
Proof.
  induction l as [|n l IH]; simpl; intros Hnd Hin; [destruct Hin|].
  inversion Hnd as [|? ? Hn Hl]; subst.
  destruct (String.eqb (id c) (id n)) eqn:E.
  - apply String.eqb_eq in E. destruct Hin as [-> | Hin]; [reflexivity|].
    exfalso. apply Hn. rewrite <- E. now apply in_map.
  - apply String.eqb_neq in E. destruct Hin as [-> | Hin]; [congruence|].
    now apply IH.
Qed.

(** A note that is not newer than the entry of its id leaves the map as it
    is. *)
Lemma merge_fold_stale (a b : list Note) :
  NoDup (map id a) ->
  (forall x, In x b ->
     exists c, In c a /\ id c = id x /\ updatedAt x <= updatedAt c) ->
  fold_left merge_step b (map entry a) = map entry a.
Proof.
  intros Hnd. induction b as [|x b IH]; simpl; intros Hb; [reflexivity|].
  destruct (Hb x (or_introl eq_refl)) as (c & Hc & Hid & Hle).
  unfold merge_step at 2. rewrite <- Hid, (Map_get_entry a c Hnd Hc).
  assert (E : (updatedAt x >? updatedAt c) = false).
  { destruct (Z.gtb_spec (updatedAt x) (updatedAt c)); [lia | reflexivity]. }
  rewrite E. apply IH. intros y Hy. apply Hb. now right.
Qed.

Lemma mergeNotes_absorbs (a b : list Note) :
  NoDup (map id a) -> sorted_desc updatedAt a ->
  (forall x, In x b ->
     exists c, In c a /\ id c = id x /\ updatedAt x <= updatedAt c) ->
  mergeNotes a b = a.
Proof.
  intros Hnd Hs Hb. unfold mergeNotes. rewrite fold_left_app.
  rewrite (merge_fold_distinct a []) by (auto; intros x _ []).
  simpl. rewrite (merge_fold_stale a b Hnd Hb), Map_values_entries.
  now apply Array_sort_fixed.
Qed.

Lemma mergeNotes_covers (current imported : list Note) (x : Note) :
  In x (current ++ imported) ->
  exists v, In v (mergeNotes current imported)
            /\ id v = id x /\ updatedAt x <= updatedAt v.
Proof.
  intros Hx.
  destruct (mergeNotes_spec current imported) as (_ & Hids & Hfl & _).
  assert (Hi : In (id x) (map id (mergeNotes current imported)))
    by (apply Hids; now apply in_map).
  apply in_map_iff in Hi. destruct Hi as (v & Hv & Hin).
  exists v. repeat split; [assumption.. |].
  apply (first_latest_bound (current ++ imported)); auto.
Qed.

(** X8: a merge loses nothing and invents nothing.  Every note of either
    collection is represented in the result by a note of its id that is at
    least as new; every note of the result is a note of one of the two
    collections, and the newest of its id there; the result has no more
    notes than the two collections together. *)
Theorem merge_loses_nothing (current imported : list Note) :
  let merged := mergeNotes current imported in
  (forall x, In x (current ++ imported) ->
     exists v, In v merged /\ id v = id x /\ updatedAt x <= updatedAt v)
  /\ (forall v, In v merged ->
        In v (current ++ imported)
        /\ forall x, In x (current ++ imported) -> id x = id v ->
                     updatedAt x <= updatedAt v)
  /\ (List.length merged <= List.length current + List.length imported)%nat.
Proof.
  intros merged. subst merged.
  destruct (mergeNotes_spec current imported) as (Hnd & Hids & Hfl & _).
  repeat apply conj.
  - apply mergeNotes_covers.
  - intros v Hv. split; [now apply first_latest_In, Hfl|].
    intros x Hx Hid. apply (first_latest_bound (current ++ imported)); auto.
  - rewrite <- length_app, <- (length_map id), <- (length_map id (_ ++ _)).
    apply NoDup_incl_length; [exact Hnd|].
    intros i Hi. now apply Hids.
Qed.

Section MergeFacts.
Context {codec : JSON}.

Lemma importNotes_same_payload (a a' : list Note) (text : string)
    (merged : list Note) :
  importNotes a text = Replaced merged ->
  exists imported,
    merged = mergeNotes a imported
    /\ importNotes a' text = Replaced (mergeNotes a' imported).
Proof.
  unfold importNotes.
  destruct (JSON_parse text) as [[| | | |elems|]|]; try discriminate.
  destruct (existsb is_null elems); [discriminate|].
  destruct (Notes_of_json elems) as [imported|]; [|discriminate].
  intros [= <-]. now exists imported.
Qed.

(** X9: importing the same file a second time changes nothing: the
    collection the first import gave is what the second gives. *)
Theorem import_twice (current : list Note) (text : string)
    (merged : list Note) :
  importNotes current text = Replaced merged ->
  importNotes merged text = Replaced merged.
Proof.
  intros H.
  destruct (importNotes_same_payload current merged text merged H)
    as (imported & Hm & ->).
  f_equal. subst merged.
  destruct (mergeNotes_spec current imported) as (Hnd & _ & _ & Hs).
  apply mergeNotes_absorbs; [assumption.. |].
  intros x Hx. apply mergeNotes_covers.
  apply in_or_app. now right.
Qed.

(** X10: a file that holds nothing new leaves a collection with distinct
    ids, newest first, exactly as it is: that is the case when every note
    of the file has the id of a current note that is at least as new.  The
    empty array is such a file. *)
Theorem import_stale_backup (current : list Note) (text : string)
    (elems : list json) (imported : list Note) :
  JSON_parse text = Normal (JArr elems) ->
  Notes_of_json elems = Some imported ->
  NoDup (map id current) ->
  sorted_desc updatedAt current ->
  (forall x, In x imported ->
     exists c, In c current /\ id c = id x /\ updatedAt x <= updatedAt c) ->
  importNotes current text = Replaced current.
Proof.
  intros Hp Hn Hnd Hs Hstale. unfold importNotes.
  rewrite Hp, (Notes_of_json_no_null _ _ Hn), Hn.
  now rewrite mergeNotes_absorbs.
Qed.
End MergeFacts.

(** ** Export *)

Lemma Notes_of_json_notes (ns : list Note) :
  Notes_of_json (map json_of_Note ns) = Some ns.
Proof.
  induction ns as [|[i t c u] ns IH]; simpl; [reflexivity|].
  simpl in IH. rewrite IH. reflexivity.
Qed.

Lemma mergeNotes_into_empty (ns : list Note) :
  NoDup (map id ns) -> sorted_desc updatedAt ns -> mergeNotes [] ns = ns.
Proof.
  intros Hnd Hs. unfold mergeNotes. simpl.
  rewrite (merge_fold_distinct ns []) by (auto; intros x _ []).
  simpl. rewrite Map_values_entries. now apply Array_sort_fixed.
Qed.

Section ExportFacts.
Context {codec : JSON} {pretty : JSONIndent}.

(** X11: the exported file is a backup.  When [JSON.parse] reads the
    exported text back as the array that was printed, importing the file
    merges exactly the exported notes; for a collection with distinct ids,
    newest first, importing it into the empty store restores the
    collection, and importing it into the collection it came from changes
    nothing.  The file is offered as [quick-notes-backup.json] with the
    JSON media type. *)
Theorem export_then_import (ns : list Note) :
  JSON_parse (data (exportNotes ns)) = Normal (json_of_notes ns) ->
  (forall current,
      importNotes current (data (exportNotes ns))
      = Replaced (mergeNotes current ns))
  /\ (NoDup (map id ns) -> sorted_desc updatedAt ns ->
      importNotes [] (data (exportNotes ns)) = Replaced ns
      /\ importNotes ns (data (exportNotes ns)) = Replaced ns)
  /\ download (exportNotes ns) = "quick-notes-backup.json"
  /\ blob_type (exportNotes ns) = "application/json".
Proof.
  intros Hp.
  assert (Himp : forall current,
             importNotes current (data (exportNotes ns))
             = Replaced (mergeNotes current ns)).
  { intros current. unfold importNotes. rewrite Hp. unfold json_of_notes.
    now rewrite (Notes_of_json_no_null _ _ (Notes_of_json_notes ns)),
                Notes_of_json_notes. }
  split; [exact Himp|]. split; [|split; reflexivity].
  intros Hnd Hs. rewrite !Himp. split; f_equal.
  - now apply mergeNotes_into_empty.
  - apply mergeNotes_absorbs; [assumption.. |].
    intros x Hx. exists x. repeat split; [assumption | lia].
Qed.
End ExportFacts.


(** ** The durable copy *)

Lemma Notes_of_Loaded_inv (l : list Loaded) (ns : list Note) :
  Notes_of_Loaded l = Some ns -> l = map loaded_of_Note ns.
Proof.
  revert ns. induction l as [|r l IH]; simpl; intros ns H.
  - now injection H as <-.
  - destruct (Note_of_Loaded r) as [n|] eqn:En; [|discriminate].
    destruct (Notes_of_Loaded l) as [ns'|]; [|discriminate].
    injection H as <-. simpl. rewrite <- (IH ns' eq_refl). f_equal.
    unfold Note_of_Loaded in En.
    destruct r as [[[| | |i| |]|] [| | |t| |] [| | |c| |] u];
      simpl in En; try discriminate.
    now injection En as <-.
Qed.

Lemma sorted_desc_unmap {A B : Type} (f : A -> B) (ka : A -> Z) (kb : B -> Z)
    (l : list A) :
  (forall a, kb (f a) = ka a) ->
  sorted_desc kb (map f l) -> sorted_desc ka l.
Proof.
  intros Hk. unfold sorted_desc.
  induction l as [|x xs IH]; simpl; intros H; [constructor|].
  inversion H as [|? ? Hs Hall]; subst. constructor; [now apply IH|].
  apply Forall_forall. intros y Hy. rewrite Forall_forall in Hall.
  rewrite <- !Hk. apply Hall. now apply in_map.
Qed.

Section DurableFacts.
Context {codec : JSON}.

Lemma load_ext (ls1 ls2 : Storage) (clock : nat -> Z) :
  getItem ls1 STORAGE_KEY = getItem ls2 STORAGE_KEY ->
  loadNotesFromStorage (Some ls1) clock = loadNotesFromStorage (Some ls2) clock.
Proof.
  intros H. unfold loadNotesFromStorage. now rewrite H.
Qed.

Lemma load_sorted (w : Browser) (clock : nat -> Z) :
  sorted_desc l_updatedAt (loadNotesFromStorage w clock).
Proof.
  unfold loadNotesFromStorage. destruct w as [ls|]; [|constructor].
  destruct (getItem ls STORAGE_KEY) as [raw|]; [|constructor].
  destruct (falsy raw); [constructor|].
  destruct (JSON_parse raw) as [[| | | |elems|]|]; try constructor.
  cbn [bind]. destruct (filter_string_id elems) as [kept|]; [|constructor].
  cbn [bind]. destruct (normalize_all clock 0 kept) as [mapped|];
    [|constructor].
  cbn [bind try_catch]. apply Array_sort_sorted.
Qed.

Lemma load_saved (ls : Storage) (ns : list Note) (clock : nat -> Z) :
  admits ls STORAGE_KEY (JSON_stringify (json_of_notes ns)) = true ->
  JSON_parse (JSON_stringify (json_of_notes ns)) = Normal (json_of_notes ns) ->
  JSON_parse EmptyString = Throws ->
  loadNotesFromStorage (saveNotesToStorage (Some ls) ns) clock
  = map loaded_of_Note (Array_sort (by_updatedAt_desc updatedAt) ns).
Proof.
  intros Hadm Hrt Hempty. unfold saveNotesToStorage, setItem. rewrite Hadm.
  cbv [try_catch].
  erewrite load_of_text with (raw := JSON_stringify (json_of_notes ns))
                             (elems := map json_of_Note ns).
  - rewrite filter_string_id_notes. simpl.
    rewrite normalize_all_notes. simpl. now apply Array_sort_map.
  - cbv [getItem]. now rewrite String.eqb_refl.
  - destruct (JSON_stringify (json_of_notes ns)) eqn:E; [|reflexivity].
    rewrite Hempty in Hrt. discriminate.
  - exact Hrt.
Qed.

(** X12: a save writes under the notes key and nowhere else; a write the
    storage refuses leaves the storage as it was; a write it admits puts
    the printed collection under the key, whatever was there, so that after
    two saves a load sees the second only. *)
Theorem saveNotesToStorage_effect (ls : Storage) (a b : list Note) :
  (forall k, k <> STORAGE_KEY ->
     read (saveNotesToStorage (Some ls) a) k = read (Some ls) k)
  /\ (admits ls STORAGE_KEY (JSON_stringify (json_of_notes a)) = false ->
      saveNotesToStorage (Some ls) a = Some ls)
  /\ (admits ls STORAGE_KEY (JSON_stringify (json_of_notes a)) = true ->
      read (saveNotesToStorage (Some ls) a) STORAGE_KEY
      = Some (JSON_stringify (json_of_notes a)))
  /\ (admits ls STORAGE_KEY (JSON_stringify (json_of_notes b)) = true ->
      forall clock,
        loadNotesFromStorage
          (saveNotesToStorage (saveNotesToStorage (Some ls) a) b) clock
        = loadNotesFromStorage (saveNotesToStorage (Some ls) b) clock).
Proof.
  repeat apply conj.
  - intros k Hk. unfold saveNotesToStorage, setItem.
    destruct (admits ls STORAGE_KEY (JSON_stringify (json_of_notes a)));
      cbn [try_catch read getItem]; [|reflexivity].
    apply String.eqb_neq in Hk. now rewrite Hk.
  - apply save_refused.
  - intros H. unfold saveNotesToStorage, setItem. rewrite H.
    cbn [try_catch read getItem]. now rewrite String.eqb_refl.
  - intros Hb clock. unfold saveNotesToStorage, setItem.
    destruct (admits ls STORAGE_KEY (JSON_stringify (json_of_notes a)));
      cbn [try_catch admits]; rewrite Hb; cbn [try_catch];
      apply load_ext; cbn [getItem]; now rewrite !String.eqb_refl.
Qed.

(** X13: what a load returned, saved back, loads as the same collection,
    whatever the clock: the defaults the first load filled in are stored
    and are no defaults any more.  The loaded records are notes ([title]
    and [content] strings), the write is admitted, and the codec gives back
    the value it printed. *)
Theorem load_save_load (ls : Storage) (clock clock' : nat -> Z)
    (ns : list Note) :
  Notes_of_Loaded (loadNotesFromStorage (Some ls) clock) = Some ns ->
  admits ls STORAGE_KEY (JSON_stringify (json_of_notes ns)) = true ->
  JSON_parse (JSON_stringify (json_of_notes ns)) = Normal (json_of_notes ns) ->
  JSON_parse EmptyString = Throws ->
  sorted_desc updatedAt ns
  /\ loadNotesFromStorage (saveNotesToStorage (Some ls) ns) clock'
     = loadNotesFromStorage (Some ls) clock.
Proof.
  intros Hns Hadm Hrt Hempty.
  pose proof (Notes_of_Loaded_inv _ _ Hns) as Hl.
  assert (Hs : sorted_desc updatedAt ns).
  { apply (sorted_desc_unmap loaded_of_Note updatedAt l_updatedAt);
      [reflexivity|]. rewrite <- Hl. apply load_sorted. }
  split; [exact Hs|].
  rewrite (load_saved ls ns clock' Hadm Hrt Hempty), Hl.
  now rewrite Array_sort_fixed.
Qed.
End DurableFacts.

(** ** More on the debounce *)

Lemma clear_current_fields (p : Page) :
  time (clear_current p) = time p
  /\ saved (clear_current p) = saved p
  /\ browser (clear_current p) = browser p
  /\ next_handle (clear_current p) = next_handle p.
Proof.
  unfold clear_current. destruct (saveTimer p) as [[|h]|]; repeat split.
Qed.

Section MoreDebounceFacts.
Context {codec : JSON}.



Lemma advance_idle_all (dt : Z) (p : Page) :
  pending p = [] ->
  saved (advance dt p) = saved p /\ browser (advance dt p) = browser p
  /\ pending (advance dt p) = [].
Proof.
  intros Hp. unfold advance. rewrite Hp. repeat split.
Qed.

Lemma mount_armed (t0 : Z) (w : Browser) :
  armed (mount t0 w) [] (t0 + DEBOUNCE)
  /\ time (mount t0 w) = t0 /\ saved (mount t0 w) = []
  /\ browser (mount t0 w) = w.
Proof.
  unfold mount, effect_body, clear_current, schedule_save. cbn.
  repeat split. exists 1%nat. cbn. repeat split; auto.
  unfold DEBOUNCE. lia.
Qed.

(** X14: an unmount inside the debounce window drops the pending save: the
    cleanup clears the timeout, and however long one waits afterwards
    nothing is written, so the collection of the last mutation does not
    reach the storage. *)
Theorem unmount_drops_pending_save (p : Page) (ns : list Note) (dt : Z) :
  page_reachable p ->
  let left := effect_cleanup (rerender ns p) in
  pending left = []
  /\ saved (advance dt left) = saved p
  /\ browser (advance dt left) = browser p.
Proof.
  intros Hreach left. subst left.
  destruct (rerender_armed ns p (page_reachable_inv p Hreach))
    as (Harm & _ & Hs & Hb).
  pose proof (unmount_cancels _ _ _ Harm) as Hp.
  destruct (advance_idle_all dt _ Hp) as (H1 & H2 & _).
  destruct (clear_current_fields (rerender ns p)) as (_ & H3 & H4 & _).
  unfold effect_cleanup in *. split; [exact Hp|].
  rewrite H1, H2, H3, H4. auto.
Qed.




(** X16: at start-up the empty collection of the first render is not
    written over the stored notes: when the loaded collection is set less
    than 300 milliseconds after the mount, the timeout of the first render
    is cleared, nothing is written for 300 milliseconds more, and then the
    loaded collection is. *)
Theorem startup_saves_loaded (t0 : Z) (w : Browser) (loaded : list Note)
    (gap quiet : Z) :
  0 <= gap < DEBOUNCE ->
  let p := rerender loaded (advance gap (mount t0 w)) in
  (0 <= quiet < DEBOUNCE ->
   saved (advance quiet p) = [] /\ browser (advance quiet p) = w)
  /\ (DEBOUNCE <= quiet ->
      saved (advance quiet p) = [(t0 + gap + DEBOUNCE, loaded)]
      /\ browser (advance quiet p) = saveNotesToStorage w loaded).
Proof.
  intros Hgap p. subst p.
  destruct (mount_armed t0 w) as (Hm & Htm & Hsm & Hbm).
  rewrite <- Htm in Hm at 2.
  destruct (advance_waits gap _ _ _ Hm) as (Ha & Hta & Hsa & Hba);
    [rewrite Htm; lia|].
  destruct (rerender_armed loaded _ (armed_inv _ _ _ Ha))
    as (Hr & Htr & Hsr & Hbr).
  rewrite Hta, Htm in *. rewrite Hsa, Hsm in Hsr. rewrite Hba, Hbm in Hbr.
  split; intros Hq.
  - destruct (advance_waits quiet _ _ _ Hr) as (_ & _ & H1 & H2);
      [rewrite Htr; lia|].
    now rewrite H1, H2, Hsr, Hbr.
  - destruct (advance_fires quiet _ _ _ Hr) as (_ & H1 & H2 & _);
      [rewrite Htr; lia|].
    now rewrite H1, H2, Hsr, Hbr.
Qed.
End MoreDebounceFacts.


(** ** More on the search *)

Section MoreSearchFacts.
Local Open Scope string_scope.

Lemma isWhiteSpace_lower_char (c : ascii) :
  isWhiteSpace (lower_char c) = isWhiteSpace c.
Proof.
  destruct c as [[] [] [] [] [] [] [] []]; vm_compute; reflexivity.
Qed.

Lemma trimStart_toLowerCase (s : string) :
  trimStart (toLowerCase s) = toLowerCase (trimStart s).
Proof.
  unfold toLowerCase. induction s as [|c s IH]; simpl; [reflexivity|].
  rewrite isWhiteSpace_lower_char. now destruct (isWhiteSpace c).
Qed.

Lemma trimEnd_toLowerCase (s : string) :
  trimEnd (toLowerCase s) = toLowerCase (trimEnd s).
Proof.
  unfold toLowerCase. induction s as [|c s IH]; [reflexivity|].
  cbn [map_string]. rewrite !trimEnd_cons, IH, isWhiteSpace_lower_char.
  destruct (trimEnd s); cbn [map_string];
    [now destruct (isWhiteSpace c) | reflexivity].
Qed.

Lemma trim_toLowerCase (s : string) :
  trim (toLowerCase s) = toLowerCase (trim s).
Proof.
  unfold trim. now rewrite trimStart_toLowerCase, trimEnd_toLowerCase.
Qed.

Lemma filteredNotes_by_lower (st : State) (q1 q2 : string) :
  toLowerCase q1 = toLowerCase q2 ->
  filteredNotes (setQuery q1 st) = filteredNotes (setQuery q2 st).
Proof.
  intros H. unfold filteredNotes. cbn [query notes setQuery].
  now rewrite <- !trim_toLowerCase, H.
Qed.

(** X17: the case of the query does not matter: two queries with the same
    lower-case form give the same result, and so a query gives what its
    lower-case form gives. *)
Theorem search_ignores_query_case (st : State) (q : string) :
  (forall q', toLowerCase q' = toLowerCase q ->
              filteredNotes (setQuery q' st) = filteredNotes (setQuery q st))
  /\ filteredNotes (setQuery (toLowerCase q) st)
     = filteredNotes (setQuery q st).
Proof.
  split.
  - intros q'. apply filteredNotes_by_lower.
  - apply filteredNotes_by_lower, toLowerCase_idem.
Qed.

Lemma includes_trans (s b a : string) :
  includes s b = true -> includes b a = true -> includes s a = true.
Proof.
  rewrite !includes_spec.
  intros (p & q & ->) (p' & q' & ->).
  exists (p ++ p'), (q' ++ q). now rewrite !append_assoc.
Qed.

Lemma includes_empty (a : string) :
  includes EmptyString a = true -> a = EmptyString.
Proof.
  rewrite includes_spec. intros (p & q & H).
  destruct p; [|discriminate]. now destruct a.
Qed.

(** X18: a longer query narrows the search: when the trimmed query [q1] is
    contained, up to case, in the trimmed query [q2], every note found for
    [q2] is found for [q1]. *)
Theorem search_narrows (st : State) (q1 q2 : string) :
  contains_ci (trim q2) (trim q1) ->
  forall n, In n (filteredNotes (setQuery q2 st)) ->
            In n (filteredNotes (setQuery q1 st)).
Proof.
  intros Hc n. apply includes_contains_ci in Hc.
  unfold filteredNotes. cbn [query notes setQuery].
  destruct (falsy (toLowerCase (trim q1))) eqn:F1.
  - destruct (falsy (toLowerCase (trim q2))); [trivial|].
    intros H. now apply filter_In in H.
  - destruct (falsy (toLowerCase (trim q2))) eqn:F2.
    + apply falsy_empty in F2. rewrite F2 in Hc.
      apply includes_empty in Hc. rewrite Hc in F1. discriminate.
    + rewrite !filter_In. intros [Hin Hm]. split; [assumption|].
      unfold matches in *. apply orb_true_iff in Hm. apply orb_true_iff.
      destruct Hm as [Hm | Hm]; [left | right];
        eapply includes_trans; eassumption.
Qed.

Lemma filteredNotes_filter (st : State) :
  exists keep, filteredNotes st = filter keep (notes st).
Proof.
  unfold filteredNotes. destruct (falsy (toLowerCase (trim (query st)))).
  - exists (fun _ => true). induction (notes st) as [|n l IH]; simpl;
      [reflexivity | now rewrite <- IH].
  - now eexists.
Qed.

(** X19: the search returns notes of the collection in the order they stand
    in: a collection that is newest first is searched into a result that is
    newest first, distinct ids stay distinct, and the result is never
    longer than the collection. *)
Theorem search_keeps_order (st : State) :
  (forall n, In n (filteredNotes st) -> In n (notes st))
  /\ (sorted_desc updatedAt (notes st) ->
      sorted_desc updatedAt (filteredNotes st))
  /\ (NoDup (map id (notes st)) -> NoDup (map id (filteredNotes st)))
  /\ (List.length (filteredNotes st) <= List.length (notes st))%nat.
Proof.
  destruct (filteredNotes_filter st) as (keep & ->). repeat apply conj.
  - intros n H. now apply filter_In in H.
  - apply sorted_desc_filter.
  - apply NoDup_ids_filter.
  - apply filter_length_le.
Qed.

Lemma trimStart_empty (s : string) :
  trimStart s = EmptyString -> all_whitespace s = true.
Proof.
  induction s as [|c s IH]; simpl; [reflexivity|].
  destruct (isWhiteSpace c); [exact IH | discriminate].
Qed.

Lemma trim_empty_iff (s : string) :
  trim s = EmptyString <-> all_whitespace s = true.
Proof.
  split; [|apply trim_whitespace].
  unfold trim. intros H. apply trimStart_empty.
  pose proof (trimStart_head s) as Hh.
  destruct (trimStart s) as [|c t]; [reflexivity|].
  rewrite trimEnd_cons, Hh in H. destruct (trimEnd t); discriminate.
Qed.

(** X20: the list never shows a blank title: a title of whitespace only
    (the empty title too) is shown as ["Untitled"], every other title is
    shown trimmed; what is shown is not empty and has no whitespace at its
    ends. *)
Theorem displayTitle_spec (n : Note) :
  displayTitle n <> EmptyString
  /\ (all_whitespace (title n) = true -> displayTitle n = "Untitled")
  /\ (all_whitespace (title n) = false -> displayTitle n = trim (title n))
  /\ trim (displayTitle n) = displayTitle n.
Proof.
  unfold displayTitle.
  destruct (falsy (trim (title n))) eqn:F.
  - apply falsy_empty, trim_empty_iff in F. rewrite F.
    repeat split; try discriminate.
  - assert (Hne : trim (title n) <> EmptyString).
    { intros H. rewrite H in F. discriminate. }
    repeat split.
    + exact Hne.
    + intros H. apply trim_empty_iff in H. contradiction.
    + apply trim_idem.
Qed.
End MoreSearchFacts.


(** ** More on the identifiers *)

Section IdentifierFacts.
Local Open Scope string_scope.

Lemma string_length_app (a b : string) :
  String.length (a ++ b) = (String.length a + String.length b)%nat.
Proof. induction a as [|c a IH]; simpl; [reflexivity | now rewrite IH]. Qed.

Lemma map_string_length (f : ascii -> ascii) (s : string) :
  String.length (map_string f s) = String.length s.
Proof. induction s as [|c s IH]; simpl; [reflexivity | now rewrite IH]. Qed.

Lemma substring_length (n m : nat) (s : string) :
  String.length (String.substring n m s)
  = Nat.min m (String.length s - n).
Proof.
  revert m s. induction n as [|n IHn]; intros m s.
  - revert s. induction m as [|m IHm]; intros s; destruct s as [|c s];
      simpl; try reflexivity.
    rewrite IHm. now rewrite Nat.sub_0_r.
  - destruct s as [|c s]; simpl.
    + now destruct m.
    + rewrite IHn. reflexivity.
Qed.

Lemma append_split (a b c d : string) :
  String.length a = String.length c -> a ++ b = c ++ d -> a = c /\ b = d.
Proof.
  revert c. induction a as [|x a IH]; intros [|y c]; simpl; try discriminate.
  - auto.
  - intros Hl H. injection Hl as Hl. injection H as -> H.
    destruct (IH c Hl H) as [-> ->]. auto.
Qed.

Lemma upper_char_not_lower (c : ascii) :
  is_lower_letter (upper_char c) = false.
Proof.
  destruct c as [[] [] [] [] [] [] [] []]; vm_compute; reflexivity.
Qed.

(** The upper-case form of a base-36 digit tells the digit. *)
Lemma upper_char_digit36 (c : ascii) :
  is_digit36 c = true -> lower_char (upper_char c) = c.
Proof.
  destruct c as [[] [] [] [] [] [] [] []]; vm_compute;
    (reflexivity || discriminate).
Qed.

Lemma toUpperCase_digits_inj (s1 s2 : string) :
  string_forall is_digit36 s1 = true ->
  string_forall is_digit36 s2 = true ->
  toUpperCase s1 = toUpperCase s2 -> s1 = s2.
Proof.
  unfold toUpperCase. revert s2.
  induction s1 as [|c s1 IH]; intros [|d s2]; simpl; try discriminate;
    [reflexivity|].
  intros H1 H2 H. apply andb_true_iff in H1, H2.
  destruct H1 as [Hc H1], H2 as [Hd H2]. injection H as Hcd H.
  rewrite <- (upper_char_digit36 c Hc), <- (upper_char_digit36 d Hd), Hcd.
  f_equal. now apply IH.
Qed.

Lemma is_digit36_digit36 (d : Z) :
  (0 <= d < 36)%Z -> is_digit36 (digit36 d) = true.
Proof.
  intros Hd. unfold is_digit36, digit36, code.
  destruct (d <? 10)%Z eqn:E.
  - apply Z.ltb_lt in E. rewrite nat_ascii_embedding by lia.
    apply orb_true_iff. left. apply andb_true_iff.
    split; apply Nat.leb_le; lia.
  - apply Z.ltb_ge in E. rewrite nat_ascii_embedding by lia.
    apply orb_true_iff. right. apply andb_true_iff.
    split; apply Nat.leb_le; lia.
Qed.

Lemma digits36_digits (fuel : nat) (n : Z) (acc : string) :
  string_forall is_digit36 acc = true ->
  string_forall is_digit36 (digits36 fuel n acc) = true.
Proof.
  revert n acc. induction fuel as [|fuel IH]; intros n acc Hacc; simpl;
    [assumption|].
  assert (H : string_forall is_digit36 (String (digit36 (n mod 36)) acc)
              = true).
  { simpl. rewrite Hacc, is_digit36_digit36; [reflexivity|].
    apply Z.mod_pos_bound. lia. }
  destruct (n <? 36)%Z; [exact H | now apply IH].
Qed.

Lemma toString36_digits (n : Z) :
  (0 <= n)%Z -> string_forall is_digit36 (toString36 n) = true.
Proof.
  intros Hn. unfold toString36.
  assert (E : (n <? 0)%Z = false) by (apply Z.ltb_ge; lia). rewrite E.
  now apply digits36_digits.
Qed.

Lemma toUpperCase_no_lower (s : string) :
  string_forall (fun c => negb (is_lower_letter c)) (toUpperCase s) = true.
Proof.
  unfold toUpperCase. induction s as [|c s IH]; simpl; [reflexivity|].
  now rewrite upper_char_not_lower, IH.
Qed.

(** X21: an identifier is the base-36 form of the clock reading followed by
    at most six characters of the random string, with every letter [a]..[z]
    in upper case.  Identifiers made at different readings of the clock are
    different whenever their random parts have the same length, as they
    have when both random strings give six characters. *)
Theorem generateId_spec (now : Z) (rnd : string) :
  String.length (generateId now rnd)
  = (String.length (toString36 now) + Nat.min 6 (String.length rnd - 2))%nat
  /\ string_forall (fun c => negb (is_lower_letter c)) (generateId now rnd)
     = true
  /\ forall now' rnd',
       (0 <= now)%Z -> (0 <= now')%Z ->
       Nat.min 6 (String.length rnd - 2)
       = Nat.min 6 (String.length rnd' - 2) ->
       generateId now rnd = generateId now' rnd' ->
       now = now'.
Proof.
  unfold generateId, slice. repeat apply conj.
  - unfold toUpperCase.
    now rewrite map_string_length, string_length_app, substring_length.
  - apply toUpperCase_no_lower.
  - intros now' rnd' Hn Hn' Hlen H.
    unfold toUpperCase in H. rewrite !map_string_app in H.
    assert (Hl : String.length (map_string upper_char (toString36 now))
                 = String.length (map_string upper_char (toString36 now'))).
    { apply (f_equal String.length) in H.
      rewrite !string_length_app, !map_string_length, !substring_length in H.
      rewrite !map_string_length. cbn [Nat.sub] in *. lia. }
    destruct (append_split _ _ _ _ Hl H) as [Ht _].
    apply toUpperCase_digits_inj in Ht; try now apply toString36_digits.
    rewrite <- (toString36_value now Hn), <- (toString36_value now' Hn').
    now rewrite Ht.
Qed.
End IdentifierFacts.


(** ** Restoring from an earlier collection *)

Lemma NoDup_ids_notes (l : list Note) : NoDup (map id l) -> NoDup l.
Proof.
  induction l as [|n l IH]; simpl; intros H; [constructor|].
  inversion H as [|? ? Hn Hl]; subst. constructor; [|now apply IH].
  intros Hin. apply Hn. now apply in_map.
Qed.

Lemma NoDup_ids_unique (l : list Note) (x y : Note) :
  NoDup (map id l) -> In x l -> In y l -> id x = id y -> x = y.
Proof.
  induction l as [|n l IH]; simpl; intros Hnd Hx Hy Hid; [destruct Hx|].
  inversion Hnd as [|? ? Hn Hl]; subst.
  destruct Hx as [-> | Hx], Hy as [-> | Hy]; try reflexivity.
  - exfalso. apply Hn. rewrite Hid. now apply in_map.
  - exfalso. apply Hn. rewrite <- Hid. now apply in_map.
  - now apply IH.
Qed.

(** X22: merging an earlier collection back brings back what was deleted
    since: after any deletions from a collection with distinct ids, the
    merge of the notes that are left with the collection as it was holds
    exactly the notes of that collection, newest first. *)
Theorem merge_restores_deleted (st : State) (deleted : list string) :
  NoDup (map id (notes st)) ->
  let st' := fold_left (fun s i => deleteNote i s) deleted st in
  let merged := mergeNotes (notes st') (notes st) in
  Permutation merged (notes st)
  /\ sorted_desc updatedAt merged
  /\ (forall n, In n (notes st') -> In n (notes st)).
Proof.
  intros Hnd st' merged.
  assert (Hsub : forall n, In n (notes st') -> In n (notes st)).
  { subst st'. clear merged Hnd. revert st.
    induction deleted as [|i l IH]; intros st n; simpl; [trivial|].
    intros H. apply IH in H. rewrite deleteNote_notes in H.
    now apply filter_In in H. }
  subst merged.
  destruct (mergeNotes_spec (notes st') (notes st)) as (Hnd' & Hids & Hfl & Hs).
  assert (Hin : forall v, In v (mergeNotes (notes st') (notes st)) ->
                          In v (notes st)).
  { intros v Hv. apply Hfl, first_latest_In, in_app_or in Hv.
    destruct Hv; [now apply Hsub | assumption]. }
  repeat apply conj; [|exact Hs | exact Hsub].
  apply NoDup_Permutation.
  - now apply NoDup_ids_notes.
  - now apply NoDup_ids_notes.
  - intros x. split; [apply Hin|]. intros Hx.
    assert (Hi : In (id x) (map id (mergeNotes (notes st') (notes st)))).
    { apply Hids. rewrite map_app. apply in_or_app. right. now apply in_map. }
    apply in_map_iff in Hi. destruct Hi as (v & Hv & Hvin).
    now rewrite <- (NoDup_ids_unique (notes st) v x Hnd (Hin v Hvin) Hx Hv).
Qed.

(** * Runs on sample data *)

Import Sample.

Example load_normalizes :
  loadNotesFromStorage (codec := JsonText.codec)
    (Some (holding (Some (JsonText.stringify stored)))) clock
  = [ {| l_id := Some (JStr "A"); l_title := JStr "Untitled";
         l_content := JStr EmptyString; l_updatedAt := 1700000000000 |};
      {| l_id := Some (JStr "B"); l_title := JStr "Untitled";
         l_content := JStr "c"; l_updatedAt := 7 |} ].
Proof. vm_compute. reflexivity. Qed.

(** One [null] in the stored array and nothing is loaded. *)
Example load_null_element :
  loadNotesFromStorage (codec := JsonText.codec)
    (Some (holding (Some (JsonText.stringify
                            (JArr [json_of_Note a200; JNull]))))) clock
  = [].
Proof. vm_compute. reflexivity. Qed.

Example load_corrupted :
  loadNotesFromStorage (codec := JsonText.codec)
    (Some (holding (Some "{not json"))) clock = [].
Proof. vm_compute. reflexivity. Qed.

Example save_on_full_storage :
  saveNotesToStorage (codec := JsonText.codec) (Some (full None)) [a200]
  = Some (full None).
Proof. reflexivity. Qed.

Lemma import_merges_witness :
  exists merged,
    importNotes (codec := JsonText.codec) [a100]
      (JsonText.stringify (json_of_notes [a200; b50])) = Replaced merged
    /\ NoDup (map id merged)
    /\ (forall i, In i (map id merged) <-> In i (map id ([a100] ++ [a200; b50])))
    /\ (forall v, In v merged -> first_latest ([a100] ++ [a200; b50]) v)
    /\ sorted_desc updatedAt merged.
Proof.
  apply (import_merges (codec := JsonText.codec) [a100]
           (JsonText.stringify (json_of_notes [a200; b50]))
           (map json_of_Note [a200; b50]) [a200; b50]).
  - vm_compute. reflexivity.
  - reflexivity.
Defined.

Lemma import_malformed_witness :
  importNotes (codec := JsonText.codec) (notes state) "{" = Unchanged
  /\ applyImport (importNotes (codec := JsonText.codec) (notes state) "{")
       state = Some state.
Proof.
  apply (import_malformed (codec := JsonText.codec) state "{").
  left. vm_compute. reflexivity.
Defined.

Example import_not_an_array :
  importNotes (codec := JsonText.codec) (notes state) "{}" = Unchanged
  /\ importNotes (codec := JsonText.codec) (notes state) "17" = Unchanged
  /\ importNotes (codec := JsonText.codec) (notes state) "[null]" = Unchanged.
Proof. repeat split; vm_compute; reflexivity. Qed.

Lemma save_then_load_witness :
  let reloaded :=
    loadNotesFromStorage (codec := JsonText.codec)
      (saveNotesToStorage (codec := JsonText.codec)
         (Some (holding None)) [b50; a200]) clock in
  Notes_of_Loaded reloaded
    = Some (Array_sort (by_updatedAt_desc updatedAt) [b50; a200])
  /\ sorted_desc l_updatedAt reloaded
  /\ Permutation (map loaded_of_Note [b50; a200]) reloaded
  /\ (sorted_desc updatedAt [b50; a200] ->
      reloaded = map loaded_of_Note [b50; a200]).
Proof.
  apply (save_then_load (codec := JsonText.codec) (holding None) [b50; a200]
           clock).
  - reflexivity.
  - vm_compute. reflexivity.
  - vm_compute. reflexivity.
Defined.

Lemma load_cases_witness :
  let ls := holding (Some (JsonText.stringify stored)) in
  let out := loadNotesFromStorage (codec := JsonText.codec) (Some ls) clock in
  sorted_desc l_updatedAt out
  /\ (forall r, In r out ->
         exists n, In n [JObj [("id", JStr "A"); ("updatedAt", JStr "soon")];
                         JObj [("title", JStr "no id")];
                         JNum 3;
                         JObj [("id", JStr "B"); ("title", JNull);
                               ("content", JStr "c"); ("updatedAt", JNum 7)]]
                   /\ has_string_id n = true /\ normalized_from clock n r)
  /\ List.length out = 2%nat
  /\ loadNotesFromStorage (codec := JsonText.codec)
       (Some (holding (Some (JsonText.stringify
                               (JArr [json_of_Note a200; JNull]))))) clock
     = [].
Proof.
  intros ls out.
  destruct (load_cases (codec := JsonText.codec) ls clock)
    as (_ & _ & _ & Harr).
  destruct (Harr (JsonText.stringify stored) _ eq_refl
              ltac:(vm_compute; reflexivity)) as (Hs & Hfrom & _ & Hall).
  repeat apply conj.
  - exact Hs.
  - exact Hfrom.
  - destruct Hall as [Hlen _].
    + vm_compute. discriminate.
    + reflexivity.
    + exact Hlen.
  - destruct (load_cases (codec := JsonText.codec)
                (holding (Some (JsonText.stringify
                                  (JArr [json_of_Note a200; JNull])))) clock)
      as (_ & _ & _ & Harr').
    destruct (Harr' (JsonText.stringify (JArr [json_of_Note a200; JNull])) _
                eq_refl ltac:(vm_compute; reflexivity)) as (_ & _ & Hnull & _).
    apply Hnull. reflexivity.
Defined.

(** C4 fails on a stored array that holds a [null]: the record before it
    has a string [id], a title, a content and a number for [updatedAt], and
    it is not loaded: the load is empty. *)
Lemma load_null_discards_valid :
  let elems := [json_of_Note a200; JNull] in
  let ls := holding (Some (JsonText.stringify (JArr elems))) in
  getItem ls STORAGE_KEY = Some (JsonText.stringify (JArr elems))
  /\ JSON_parse (JSON := JsonText.codec) (JsonText.stringify (JArr elems))
     = Normal (JArr elems)
  /\ In (json_of_Note a200) elems
  /\ has_string_id (json_of_Note a200) = true
  /\ loadNotesFromStorage (codec := JsonText.codec) (Some ls) clock = [].
Proof.
  intros elems ls. repeat apply conj.
  - reflexivity.
  - vm_compute. reflexivity.
  - now left.
  - reflexivity.
  - vm_compute. reflexivity.
Defined.

Lemma createNote_spec_witness :
  exists n,
    notes (createNote clock "0.4fzyo82mvyr" state) = n :: notes state
    /\ id n = "LOYW3V284FZYO8"
    /\ selectedNote (createNote clock "0.4fzyo82mvyr" state) = Some n
    /\ ~ In (id n) (map id (notes state))
    /\ NoDup (map id (notes (createNote clock "0.4fzyo82mvyr" state))).
Proof.
  destruct (createNote_spec clock "0.4fzyo82mvyr" state)
    as (n & Hn & Hid & _ & _ & _ & _ & _ & Hsel & _ & Hfresh).
  exists n.
  assert (Hgen : generateId (clock 0%nat) "0.4fzyo82mvyr" = "LOYW3V284FZYO8")
    by (vm_compute; reflexivity).
  destruct Hfresh as [Hnew Hnd].
  { rewrite Hgen. simpl. intuition discriminate. }
  repeat apply conj.
  - exact Hn.
  - now rewrite Hid.
  - exact Hsel.
  - exact Hnew.
  - apply Hnd. repeat constructor; simpl; intuition discriminate.
Defined.

Example generateId_example :
  generateId 1700000000000 "0.4fzyo82mvyr" = "LOYW3V284FZYO8".
Proof. vm_compute. reflexivity. Qed.

Lemma mutations_keep_order_witness :
  sorted_desc updatedAt
    (notes (updateSelected {| p_title := Some "Groceries"; p_content := None |}
              clock state))
  /\ sorted_desc updatedAt (mergeNotes (notes state) [a100])
  /\ sorted_desc updatedAt (notes (deleteNote "A" state))
  /\ sorted_desc updatedAt (notes (createNote clock "0.4fzyo82mvyr" state)).
Proof.
  assert (Hsorted : sorted_desc updatedAt (notes state)).
  { repeat constructor. simpl. lia. }
  destruct (mutations_keep_order (codec := JsonText.codec) state)
    as (Hupd & Himp & Hdel & Hnew).
  repeat apply conj.
  - apply (Hupd _ clock b50). reflexivity.
  - apply (Himp (JsonText.stringify (json_of_notes [a100]))).
    vm_compute. reflexivity.
  - apply Hdel. exact Hsorted.
  - apply (Hnew clock "0.4fzyo82mvyr" Hsorted).
    intros n [<- | [<- | []]]; unfold clock; simpl; lia.
Defined.


Lemma filteredNotes_spec_witness :
  (forall n, In n (filteredNotes state)
             <-> In n (notes state)
                 /\ (contains_ci (title n) "MILK"
                     \/ contains_ci (content n) "MILK"))
  /\ filteredNotes (setQuery "   " state) = notes state.
Proof.
  split.
  - destruct (filteredNotes_spec state) as (_ & Hq).
    destruct Hq as (_ & Hin & _); [vm_compute; discriminate|].
    exact Hin.
  - destruct (filteredNotes_spec (setQuery "   " state)) as (Hq & _).
    apply Hq. reflexivity.
Defined.

Example search_example : filteredNotes state = [b50].
Proof. vm_compute. reflexivity. Qed.

Lemma search_trims_witness :
  filteredNotes (setQuery "   " state) = notes state
  /\ filteredNotes (setQuery (" " ++ "milk" ++ "  ")%string state)
     = filteredNotes (setQuery "milk" state)
  /\ filteredNotes state = filteredNotes (setQuery "MILK" state).
Proof.
  repeat apply conj.
  - destruct (search_trims (setQuery "   " state)) as (Hws & _).
    apply Hws. reflexivity.
  - destruct (search_trims state) as (_ & Hpad & _).
    apply Hpad; reflexivity.
  - destruct (search_trims state) as (_ & _ & Htrim). exact Htrim.
Defined.

(** Five mutations in 200 milliseconds, then quiet: one save, 300
    milliseconds after the fifth, of the fifth collection, and the notes
    key holds that collection. *)
Lemma debounced_save_witness :
  let p := mount 0 (Some (holding None)) in
  let ms := [(50, [a100]); (50, [a200]); (50, [a200; b50]); (50, [b50])] in
  let settled := burst (codec := JsonText.codec) ms (rerender [] p) in
  (List.length (pending p) <= 1)%nat
  /\ (List.length (pending settled) = 1)%nat
  /\ saved settled = []
  /\ saved (advance (codec := JsonText.codec) 299 settled) = []
  /\ read (browser (advance (codec := JsonText.codec) 299 settled))
       STORAGE_KEY = None
  /\ saved (advance (codec := JsonText.codec) 300 settled) = [(500, [b50])]
  /\ read (browser (advance (codec := JsonText.codec) 300 settled))
       STORAGE_KEY
     = Some (JsonText.stringify (json_of_notes [b50])).
Proof.
  intros p ms settled.
  destruct (debounced_save (codec := JsonText.codec) p (page_mount 0 _))
    as (Hone & Hburst).
  assert (Hms : Forall (fun m : Z * list Note => 0 <= fst m < DEBOUNCE) ms).
  { repeat constructor; simpl; unfold DEBOUNCE; lia. }
  repeat apply conj.
  - exact Hone.
  - now destruct (Hburst [] ms 0 Hms) as (H & _).
  - now destruct (Hburst [] ms 0 Hms) as (_ & H & _).
  - destruct (Hburst [] ms 299 Hms) as (_ & _ & _ & H & _).
    destruct H as [H _]; [unfold DEBOUNCE; lia | exact H].
  - destruct (Hburst [] ms 299 Hms) as (_ & _ & _ & H & _).
    destruct H as [_ H]; [unfold DEBOUNCE; lia|].
    fold settled in H. now rewrite H.
  - destruct (Hburst [] ms 300 Hms) as (_ & _ & _ & _ & H).
    destruct H as (H & _); [unfold DEBOUNCE; lia | exact H].
  - destruct (Hburst [] ms 300 Hms) as (_ & _ & _ & _ & H).
    destruct H as (_ & _ & _ & H & _); [unfold DEBOUNCE; lia|].
    apply (H (holding None)); reflexivity.
Defined.

(** An array element that is neither [null] nor a note record: the handler
    stores it, and the collection is no longer a [Note[]]. *)
Example import_untyped_element :
  importNotes (codec := JsonText.codec) (notes state) "[1]" = Untyped.
Proof. vm_compute. reflexivity. Qed.

(** ** Runs of the further properties *)

Lemma deleteNote_spec_witness :
  notes (deleteNote "Z" state) = notes state
  /\ selectedId (deleteNote "Z" state) = selectedId state
  /\ selectedId (deleteNote "B" state) = None
  /\ NoDup (map id (notes (deleteNote "B" state))).
Proof.
  repeat apply conj.
  - destruct (deleteNote_spec "Z" state) as (_ & _ & _ & H & _).
    apply H. simpl. intuition discriminate.
  - destruct (deleteNote_spec "Z" state) as (_ & _ & _ & _ & _ & H & _).
    apply H. discriminate.
  - destruct (deleteNote_spec "B" state) as (_ & _ & _ & _ & H & _).
    apply H. reflexivity.
  - destruct (deleteNote_spec "B" state) as (_ & _ & _ & _ & _ & _ & _ & H).
    apply H. repeat constructor; simpl; intuition discriminate.
Defined.

Lemma autoSelect_settles_witness :
  selectedId (autoSelect (setSelectedId None state)) = Some "A"
  /\ selectedNote (autoSelect (setSelectedId None state)) = Some a200
  /\ autoSelect state = state.
Proof.
  destruct (autoSelect_settles (setSelectedId None state))
    as (_ & _ & _ & _ & _ & Hpick).
  destruct (Hpick a200 [b50] eq_refl (or_introl eq_refl)) as [H1 H2].
  destruct (autoSelect_settles state) as (_ & _ & _ & Hkeep & _).
  repeat apply conj; [exact H1 | exact H2 |].
  apply (Hkeep "B"); [reflexivity | discriminate].
Defined.

Lemma delete_selected_then_autoSelect_witness :
  let st' := autoSelect (deleteNote "B" state) in
  notes st' = filter (other_than "B") (notes state)
  /\ selectedId st' = option_map id (hd_error (notes st'))
  /\ selectedNote st' = hd_error (notes st').
Proof.
  apply (delete_selected_then_autoSelect "B" state). reflexivity.
Defined.

Lemma selection_kept_by_handlers_witness :
  selection_valid (deleteNote "B" state)
  /\ selection_valid (updateSelected
                        {| p_title := None; p_content := Some "Eggs" |}
                        clock state)
  /\ selection_valid (setNotes (mergeNotes (notes state) [a100]) state)
  /\ (selectedNote state = None <-> selectedId state = None).
Proof.
  assert (Hv : selection_valid state).
  { intros s [= <-]. simpl. auto. }
  destruct (selection_kept_by_handlers (codec := JsonText.codec) state Hv)
    as (_ & _ & Hdel & _ & Hupd & _ & Himp & Hnone).
  repeat apply conj.
  - apply Hdel.
  - apply Hupd.
  - apply (Himp (JsonText.stringify (json_of_notes [a100]))).
    vm_compute. reflexivity.
  - apply (proj1 Hnone).
  - apply (proj2 Hnone).
Defined.

Lemma late_import_drops_created_note_witness :
  let created := createNote clock "0.4fzyo82mvyr" state in
  let st' := setNotes [a200; b50] created in
  applyImport
    (importNotes (codec := JsonText.codec) (notes state)
       (JsonText.stringify (json_of_notes [a100]))) created = Some st'
  /\ notes st' = [a200; b50]
  /\ selectedId st' = Some (generateId (clock 0%nat) "0.4fzyo82mvyr")
  /\ selectedNote st' = None
  /\ autoSelect st' = st'
  /\ (reachable (codec := JsonText.codec) state ->
      reachable (codec := JsonText.codec) st').
Proof.
  apply (late_import_drops_created_note (codec := JsonText.codec) state clock
           "0.4fzyo82mvyr" (JsonText.stringify (json_of_notes [a100]))
           [a200; b50]).
  - vm_compute. reflexivity.
  - vm_compute. intuition discriminate.
Defined.

Lemma updateSelected_keeps_selection_witness :
  let partial := {| p_title := None; p_content := Some "Eggs" |} in
  selectedNote (updateSelected partial clock state)
  = Some {| id := "B"; title := "Shopping"; content := "Eggs";
            updatedAt := 1700000000000 |}
  /\ NoDup (map id (notes (updateSelected partial clock state))).
Proof.
  intros partial.
  assert (Hnd : NoDup (map id (notes state)))
    by (repeat constructor; simpl; intuition discriminate).
  destruct (updateSelected_keeps_selection partial clock state)
    as (_ & _ & Hkeep & Hsel).
  split; [apply (Hsel b50 eq_refl Hnd) | apply (Hkeep Hnd)].
Defined.

Lemma updateSelected_moves_to_front_witness :
  let partial := {| p_title := None; p_content := Some "Eggs" |} in
  notes (updateSelected partial clock state)
  = [{| id := "B"; title := "Shopping"; content := "Eggs";
        updatedAt := 1700000000000 |}; a200].
Proof.
  intros partial.
  destruct (updateSelected_moves_to_front partial clock state b50) as [_ H].
  - reflexivity.
  - repeat constructor; simpl; intuition discriminate.
  - intros n [<- | [<- | []]] Hid; [vm_compute; reflexivity | now elim Hid].
  - apply H. repeat constructor. simpl. lia.
Defined.

Lemma import_twice_witness :
  importNotes (codec := JsonText.codec) [a200; b50]
    (JsonText.stringify (json_of_notes [a200; b50])) = Replaced [a200; b50].
Proof.
  apply (import_twice (codec := JsonText.codec) [a100]).
  vm_compute. reflexivity.
Defined.

Lemma import_stale_backup_witness :
  importNotes (codec := JsonText.codec) [a200; b50]
    (JsonText.stringify (json_of_notes [a100])) = Replaced [a200; b50]
  /\ importNotes (codec := JsonText.codec) [a200; b50] "[]"
     = Replaced [a200; b50].
Proof.
  assert (Hnd : NoDup (map id [a200; b50]))
    by (repeat constructor; simpl; intuition discriminate).
  assert (Hs : sorted_desc updatedAt [a200; b50])
    by (repeat constructor; simpl; lia).
  split.
  - apply (import_stale_backup (codec := JsonText.codec) [a200; b50] _
             (map json_of_Note [a100]) [a100]); try assumption.
    + vm_compute. reflexivity.
    + reflexivity.
    + intros x [<- | []]. exists a200. simpl. repeat split; [now left | lia].
  - apply (import_stale_backup (codec := JsonText.codec) [a200; b50] "[]"
             [] []); try assumption.
    + vm_compute. reflexivity.
    + reflexivity.
    + intros x [].
Defined.

Lemma export_then_import_witness :
  importNotes (codec := JsonText.codec) []
    (data (exportNotes (pretty := JsonText.pretty) [a200; b50]))
  = Replaced [a200; b50]
  /\ importNotes (codec := JsonText.codec) [a200; b50]
       (data (exportNotes (pretty := JsonText.pretty) [a200; b50]))
     = Replaced [a200; b50].
Proof.
  destruct (export_then_import (codec := JsonText.codec)
              (pretty := JsonText.pretty) [a200; b50]) as (_ & H & _).
  - vm_compute. reflexivity.
  - apply H.
    + repeat constructor; simpl; intuition discriminate.
    + repeat constructor. simpl. lia.
Defined.

Lemma saveNotesToStorage_effect_witness :
  read (saveNotesToStorage (codec := JsonText.codec)
          (Some (holding None)) [a200]) STORAGE_KEY
  = Some (JsonText.stringify (json_of_notes [a200]))
  /\ saveNotesToStorage (codec := JsonText.codec) (Some (full None)) [a200]
     = Some (full None)
  /\ loadNotesFromStorage (codec := JsonText.codec)
       (saveNotesToStorage (codec := JsonText.codec)
          (saveNotesToStorage (codec := JsonText.codec)
             (Some (holding None)) [a200]) [b50]) clock
     = loadNotesFromStorage (codec := JsonText.codec)
         (saveNotesToStorage (codec := JsonText.codec)
            (Some (holding None)) [b50]) clock.
Proof.
  repeat apply conj.
  - destruct (saveNotesToStorage_effect (codec := JsonText.codec)
                (holding None) [a200] [b50]) as (_ & _ & H & _).
    apply H. reflexivity.
  - destruct (saveNotesToStorage_effect (codec := JsonText.codec)
                (full None) [a200] [b50]) as (_ & H & _).
    apply H. reflexivity.
  - destruct (saveNotesToStorage_effect (codec := JsonText.codec)
                (holding None) [a200] [b50]) as (_ & _ & _ & H).
    apply H. reflexivity.
Defined.

Lemma load_save_load_witness :
  let ls := holding (Some (JsonText.stringify stored)) in
  let ns := [{| id := "A"; title := "Untitled"; content := EmptyString;
                updatedAt := 1700000000000 |};
             {| id := "B"; title := "Untitled"; content := "c";
                updatedAt := 7 |}] in
  sorted_desc updatedAt ns
  /\ loadNotesFromStorage (codec := JsonText.codec)
       (saveNotesToStorage (codec := JsonText.codec) (Some ls) ns)
       (fun _ => 0)
     = loadNotesFromStorage (codec := JsonText.codec) (Some ls) clock.
Proof.
  intros ls ns.
  apply (load_save_load (codec := JsonText.codec) ls clock (fun _ => 0) ns).
  - vm_compute. reflexivity.
  - reflexivity.
  - vm_compute. reflexivity.
  - vm_compute. reflexivity.
Defined.

Lemma unmount_drops_pending_save_witness :
  let p := mount 0 (Some (holding None)) in
  let left := effect_cleanup (rerender [a200] p) in
  pending left = []
  /\ saved (advance (codec := JsonText.codec) 1000 left) = saved p
  /\ browser (advance (codec := JsonText.codec) 1000 left) = browser p.
Proof.
  apply (unmount_drops_pending_save (codec := JsonText.codec)).
  apply page_mount.
Defined.


Lemma startup_saves_loaded_witness :
  let p := rerender [a200; b50]
             (advance (codec := JsonText.codec) 0
                (mount 0 (Some (holding None)))) in
  saved (advance (codec := JsonText.codec) 299 p) = []
  /\ saved (advance (codec := JsonText.codec) 300 p) = [(300, [a200; b50])].
Proof.
  intros p.
  destruct (startup_saves_loaded (codec := JsonText.codec) 0
              (Some (holding None)) [a200; b50] 0 299) as [H1 _];
    [unfold DEBOUNCE; lia|].
  destruct (startup_saves_loaded (codec := JsonText.codec) 0
              (Some (holding None)) [a200; b50] 0 300) as [_ H2];
    [unfold DEBOUNCE; lia|].
  split.
  - apply H1. unfold DEBOUNCE. lia.
  - apply H2. unfold DEBOUNCE. lia.
Defined.

Lemma search_ignores_query_case_witness :
  filteredNotes (setQuery "mILk" state) = filteredNotes (setQuery "MILK" state).
Proof.
  destruct (search_ignores_query_case state "MILK") as (H & _).
  apply H. reflexivity.
Defined.

Lemma search_narrows_witness :
  In b50 (filteredNotes (setQuery "mil" state)).
Proof.
  apply (search_narrows state "mil" " Milk ").
  - apply includes_contains_ci. vm_compute. reflexivity.
  - vm_compute. now left.
Defined.

Lemma search_keeps_order_witness :
  sorted_desc updatedAt (filteredNotes state)
  /\ NoDup (map id (filteredNotes state)).
Proof.
  destruct (search_keeps_order state) as (_ & Hs & Hnd & _). split.
  - apply Hs. repeat constructor. simpl. lia.
  - apply Hnd. repeat constructor; simpl; intuition discriminate.
Defined.

Lemma displayTitle_spec_witness :
  displayTitle {| id := "C"; title := "   "; content := "x"; updatedAt := 1 |}
  = "Untitled"
  /\ displayTitle {| id := "C"; title := " Plan "; content := "x";
                     updatedAt := 1 |} = "Plan".
Proof.
  split.
  - destruct (displayTitle_spec
                {| id := "C"; title := "   "; content := "x";
                   updatedAt := 1 |}) as (_ & H & _).
    apply H. reflexivity.
  - destruct (displayTitle_spec
                {| id := "C"; title := " Plan "; content := "x";
                   updatedAt := 1 |}) as (_ & _ & H & _).
    apply H. reflexivity.
Defined.

Lemma generateId_spec_witness :
  generateId 1700000000000 "0.4fzyo82mvyr"
  <> generateId 1700000000001 "0.8kq2x0c1pzz".
Proof.
  intros H.
  destruct (generateId_spec 1700000000000 "0.4fzyo82mvyr") as (_ & _ & Hinj).
  specialize (Hinj 1700000000001 "0.8kq2x0c1pzz").
  assert (E : 1700000000000 = 1700000000001).
  { apply Hinj; [lia | lia | reflexivity | exact H]. }
  discriminate E.
Defined.

Lemma merge_restores_deleted_witness :
  let st' := fold_left (fun s i => deleteNote i s) ["A"; "B"] state in
  Permutation (mergeNotes (notes st') (notes state)) (notes state)
  /\ sorted_desc updatedAt (mergeNotes (notes st') (notes state))
  /\ (forall n, In n (notes st') -> In n (notes state)).
Proof.
  apply (merge_restores_deleted state ["A"; "B"]).
  repeat constructor; simpl; intuition discriminate.
Defined.
